(** * velite field schemas: slug, file, image, excerpt, isodate

    A shallow embedding of [src/schemas/{slug,file,image,excerpt,isodate}.ts].
    JavaScript strings are sequences of code units, modelled by [string]
    (an [ascii] stands for a code unit; the schemas look inside a string
    only through the slug pattern, which no code unit outside ASCII
    matches). The build-wide [config.cache] is a finite map with string
    keys; the effects of the callbacks ([addIssue], [config.cache.set],
    [processAsset]) are written in state-passing style. [./zod] and
    [../assets] are not among the sources: the zod combinators are modelled
    from the specification, and [isRelativePath] and [processAsset] are
    parameters. *)

From Stdlib Require Import ZArith Ascii String DecimalString List Bool Lia.
From stdpp Require Import base option gmap strings list.

Notation "x |> f" := (f x) (at level 45, left associativity, only parsing).

(** ** JavaScript strings and arrays *)

Module JsString.

(** [s.length]: the number of code units. *)
Definition len (s : string) : nat := String.length s.

(** [s.slice(start, end)] (ECMA-262, String.prototype.slice): negative
    positions count from the end, both are clamped to [0, s.length]. *)
Definition slice (s : string) (start end_ : Z) : string :=
  let n := Z.of_nat (len s) in
  let from := if (start <? 0)%Z then Z.max (n + start) 0 else Z.min start n in
  let to := if (end_ <? 0)%Z then Z.max (n + end_) 0 else Z.min end_ n in
  String.substring (Z.to_nat from) (Z.to_nat (Z.max (to - from) 0)) s.

(** [arr.includes(value)] on an array of strings. *)
Definition includes (arr : list string) (value : string) : bool :=
  existsb (String.eqb value) arr.

(** [arr.join(sep)]. *)
Definition join (sep : string) (arr : list string) : string :=
  String.concat sep arr.

(** [hay.includes(needle)]: [needle] occurs in [hay] as a substring. *)
Fixpoint contains (needle hay : string) : bool :=
  String.prefix needle hay
  || match hay with
     | EmptyString => false
     | String _ hay' => contains needle hay'
     end.

(** [String(n)] for a natural number. *)
Definition of_nat (n : nat) : string :=
  NilEmpty.string_of_uint (Nat.to_uint n).

(** Letter case of a code unit, on the ASCII letters. *)
Definition code (c : ascii) : N := N_of_ascii c.

Definition in_range (lo hi c : ascii) : bool :=
  ((code lo <=? code c) && (code c <=? code hi))%N.

Definition to_upper (c : ascii) : ascii :=
  if in_range "a" "z" c then ascii_of_N (code c - 32) else c.

Definition to_lower (c : ascii) : ascii :=
  if in_range "A" "Z" c then ascii_of_N (code c + 32) else c.

(** [s.toLowerCase()] on the ASCII letters. *)
Fixpoint toLowerCase (s : string) : string :=
  match s with
  | EmptyString => EmptyString
  | String c s' => String (to_lower c) (toLowerCase s')
  end.

End JsString.

(** ** Regular expressions

    The fragment of the RegExp syntax [slug.ts] uses: literals, character
    classes given by ranges, sequence, [+] and [*]; the [i] flag is an
    argument of the matcher.  A pattern written [/^r$/] is matched against
    the whole string ([$] without the [m] flag only matches at the end). *)

Module Regex.
Import JsString.

Inductive re : Type :=
| Void                                   (* matches nothing *)
| Eps                                    (* the empty string *)
| Lit (c : ascii)                        (* a literal character *)
| Class (ranges : list (ascii * ascii))  (* [a-z0-9] *)
| Seq (r1 r2 : re)
| Alt (r1 r2 : re)
| Plus (r : re)
| Star (r : re).

(** With the [i] flag two code units match when they canonicalize (upper
    case) to the same code unit; only ASCII letters canonicalize into the
    ASCII range. *)
Definition lit_matches (ignoreCase : bool) (c d : ascii) : bool :=
  if ignoreCase then Ascii.eqb (to_upper c) (to_upper d) else Ascii.eqb c d.

Definition class_matches (ignoreCase : bool) (ranges : list (ascii * ascii))
    (d : ascii) : bool :=
  existsb (fun '(lo, hi) =>
             in_range lo hi d
             || (ignoreCase
                 && (in_range lo hi (to_upper d) || in_range lo hi (to_lower d))))
          ranges.

Fixpoint nullable (r : re) : bool :=
  match r with
  | Void => false
  | Eps => true
  | Lit _ => false
  | Class _ => false
  | Seq r1 r2 => nullable r1 && nullable r2
  | Alt r1 r2 => nullable r1 || nullable r2
  | Plus r => nullable r
  | Star _ => true
  end.

(** Brzozowski derivative of [r] by the code unit [d]. *)
Fixpoint deriv (i : bool) (d : ascii) (r : re) : re :=
  match r with
  | Void => Void
  | Eps => Void
  | Lit c => if lit_matches i c d then Eps else Void
  | Class rs => if class_matches i rs d then Eps else Void
  | Seq r1 r2 =>
      if nullable r1
      then Alt (Seq (deriv i d r1) r2) (deriv i d r2)
      else Seq (deriv i d r1) r2
  | Alt r1 r2 => Alt (deriv i d r1) (deriv i d r2)
  | Plus r => Seq (deriv i d r) (Star r)
  | Star r => Seq (deriv i d r) (Star r)
  end.

(** [/^r$/.test(s)], with [i] the ignore-case flag. *)
Fixpoint test (i : bool) (r : re) (s : string) : bool :=
  match s with
  | EmptyString => nullable r
  | String d s' => test i (deriv i d r) s'
  end.

(** The strings a pattern denotes. *)
Inductive matches (i : bool) : re -> string -> Prop :=
| MEps : matches i Eps ""
| MLit c d : lit_matches i c d = true -> matches i (Lit c) (String d "")
| MClass rs d :
    class_matches i rs d = true -> matches i (Class rs) (String d "")
| MSeq r1 r2 s1 s2 :
    matches i r1 s1 -> matches i r2 s2 -> matches i (Seq r1 r2) (s1 +:+ s2)
| MAltL r1 r2 s : matches i r1 s -> matches i (Alt r1 r2) s
| MAltR r1 r2 s : matches i r2 s -> matches i (Alt r1 r2) s
| MPlus r s1 s2 :
    matches i r s1 -> matches i (Star r) s2 -> matches i (Plus r) (s1 +:+ s2)
| MStar0 r : matches i (Star r) ""
| MStarS r s1 s2 :
    matches i r s1 -> matches i (Star r) s2 -> matches i (Star r) (s1 +:+ s2).

End Regex.

(** ** Values, files, issues and the build state *)

(** [Image] of [../assets], as [image.ts] builds it. *)
Record Image : Type := mkImage {
  src : string;
  width : Z;
  height : Z;
  blurDataURL : string;
  blurWidth : Z;
  blurHeight : Z
}.

(** The JavaScript values the schemas receive and return. [JNull] stands for
    both [null] and [undefined] (the sources only test [== null]). *)
Inductive JsValue : Type :=
| JNull
| JStr (s : string)
| JImage (i : Image).

Inductive Exn : Type :=
| TypeError (msg : string)
| RangeError (msg : string).

(** A zod issue: [{ code, message, path }]. *)
Record Issue : Type := mkIssue {
  code : string;
  message : string;
  issue_path : list string
}.

(** The file under validation: [file.path] and [file.data.plain]. *)
Record VFile : Type := mkVFile {
  file_path : string;
  file_data_plain : option string
}.

(** [config.output]: the two fields the schemas read. *)
Record Output : Type := mkOutput {
  output_name : string;
  output_base : string
}.

(** What a callback reads: [{ path, meta: { file, config } }], the read-only
    part ([config.cache] is in the state below). *)
Record Ctx : Type := mkCtx {
  ctx_path : list string;
  ctx_file : VFile;
  ctx_output : Output
}.

(** The arguments of one call of [processAsset]. *)
Record AssetCall : Type := mkAssetCall {
  call_input : string;
  call_from : string;
  call_filename : string;
  call_baseUrl : string;
  call_isImage : bool
}.

(** The mutable state of a run: the issues reported so far for the file
    being parsed, the build-wide [config.cache] (a [Map<string, any>]; the
    slug schema stores file paths), the log of the calls of [processAsset]
    made, and [World]: whatever [processAsset] reads and writes outside the
    build config (the file system, the module's own tables). *)
Record St (World : Type) : Type := mkSt {
  issues : list Issue;
  cache : gmap string string;
  world : World;
  resolver_calls : list AssetCall
}.
Arguments mkSt {World} _ _ _ _.
Arguments issues {World} _.
Arguments cache {World} _.
Arguments world {World} _.
Arguments resolver_calls {World} _.

(** What a callback gives back: a value or a thrown exception (a rejected
    promise, for an async callback). *)
Inductive Completion (A : Type) : Type :=
| Return (a : A)
| Throw (e : Exn).
Arguments Return {A} a.
Arguments Throw {A} e.

(** The result of parsing: zod's three statuses, or an exception that
    escaped a callback. *)
Inductive Outcome (A : Type) : Type :=
| Valid (a : A)
| Dirty (a : A)
| Aborted
| Thrown (e : Exn).
Arguments Valid {A} a.
Arguments Dirty {A} a.
Arguments Aborted {A}.
Arguments Thrown {A} e.

Definition Schema (World A B : Type) : Type :=
  A -> Ctx -> St World -> Outcome B * St World.

Section State.
Context {World : Type}.
Implicit Types (st : St World) (ctx : Ctx).

Definition set_issues (l : list Issue) st : St World :=
  mkSt l (cache st) (world st) (resolver_calls st).

(** [config.cache.set(key, value)] *)
Definition cache_set (key value : string) st : St World :=
  mkSt (issues st) (<[key := value]> (cache st)) (world st) (resolver_calls st).

(** [config.cache.has(key)] *)
Definition cache_has (key : string) st : bool :=
  match cache st !! key with Some _ => true | None => false end.

(** [addIssue({ code, message })]: zod completes the issue with the path
    of the value being parsed and appends it to the issues of the parse. *)
Definition addIssue (c m : string) ctx st : St World :=
  set_issues (issues st ++ [mkIssue c m (ctx_path ctx)]) st.

(** Whether a callback reported an issue: issues are only ever appended. *)
Definition reported st st' : bool :=
  (List.length (issues st) <? List.length (issues st'))%nat.

End State.

(** ** The zod combinators the schemas are built from *)

Module z.
Section Combinators.
Context {World : Type}.

(** Modelled from the spec: [string()] of [./zod] ("accepts a string",
    sections 4.2 to 4.6); a value of another type is an issue and stops
    the parse. *)
Definition string : Schema World JsValue string :=
  fun v ctx st =>
    match v with
    | JStr s => (Valid s, st)
    | _ => (Aborted, addIssue "invalid_type" "Expected string" ctx st)
    end.

(** Modelled from the spec: [custom<T>()] of [./zod] without a check
    accepts every value (section 4.5: "always succeeds"). *)
Definition custom : Schema World JsValue JsValue :=
  fun v ctx st => (Valid v, st).

(** Modelled from the spec: a check of the string schema of [./zod]
    ([.min], [.max], [.regex]). Section 4.2 lists them as constraints
    whose failure "reports a descriptive issue"; section 4.7 has every
    issue collected, so a check also runs after an earlier one failed. *)
Definition check {A} (ok : String.string -> bool) (c m : String.string)
    (inner : Schema World A String.string) : Schema World A String.string :=
  fun v ctx st =>
    match inner v ctx st with
    | (Valid s, st') =>
        if ok s then (Valid s, st') else (Dirty s, addIssue c m ctx st')
    | (Dirty s, st') =>
        if ok s then (Dirty s, st') else (Dirty s, addIssue c m ctx st')
    | other => other
    end.

Definition min {A} (n : nat)
    : Schema World A String.string -> Schema World A String.string :=
  check (fun s => (n <=? JsString.len s)%nat) "too_small"
        ("String must contain at least " +:+ JsString.of_nat n +:+ " character(s)").

Definition max {A} (n : nat)
    : Schema World A String.string -> Schema World A String.string :=
  check (fun s => (JsString.len s <=? n)%nat) "too_big"
        ("String must contain at most " +:+ JsString.of_nat n +:+ " character(s)").

Definition regex {A} (r : Regex.re) (ignoreCase : bool) (m : String.string)
    : Schema World A String.string -> Schema World A String.string :=
  check (Regex.test ignoreCase r) "invalid_string" m.

(** Modelled from the spec: [.superRefine(callback)] of [./zod]. The
    callback runs "after syntactic checks pass" and, "on syntax failure
    or reserved-word match", is not attempted (section 4.2): it runs on
    a value that came through without an issue. An issue it reports
    makes the result dirty, not aborted (sections 4.2 and 7). *)
Definition superRefine {A B} (callback : B -> Ctx -> St World -> St World)
    (inner : Schema World A B) : Schema World A B :=
  fun v ctx st =>
    match inner v ctx st with
    | (Valid b, st') =>
        let st'' := callback b ctx st' in
        (if reported st' st'' then Dirty b else Valid b, st'')
    | other => other
    end.

(** Modelled from the spec: [.refine(check, message)] of [./zod], the
    refinement that reports [message] when [check] is false. *)
Definition refine {A B} (ok : B -> bool) (m : String.string)
    : Schema World A B -> Schema World A B :=
  superRefine (fun b ctx st => if ok b then st else addIssue "custom" m ctx st).

(** Modelled from the spec: [.transform(callback)] of [./zod]. The
    callback receives the validated value; an issue it reports leaves
    the value it returns in place (section 4.3: "the field value becomes
    null ... rather than aborting"). A value that did not validate is not
    transformed. *)
Definition transform {A B C}
    (callback : B -> Ctx -> St World -> Completion C * St World)
    (inner : Schema World A B) : Schema World A C :=
  fun v ctx st =>
    match inner v ctx st with
    | (Valid b, st') =>
        match callback b ctx st' with
        | (Return c, st'') =>
            (if reported st' st'' then Dirty c else Valid c, st'')
        | (Throw e, st'') => (Thrown e, st'')
        end
    | (Dirty _, st') => (Aborted, st')
    | (Aborted, st') => (Aborted, st')
    | (Thrown e, st') => (Thrown e, st')
    end.

End Combinators.
End z.

(** ** Dates: the part of [Date] that [isodate.ts] uses

    Time values are integers, milliseconds since 1970-01-01T00:00:00Z, of
    absolute value at most 8.64e15; [None] stands for [NaN] (an invalid
    date). ECMA-262, section 21.4.1. *)

Module JsDate.
Local Open Scope Z_scope.

Definition msPerDay : Z := 86400000.
Definition maxTime : Z := 8640000000000000.

Definition TimeClip (t : Z) : option Z :=
  if Z.abs t <=? maxTime then Some t else None.

Definition Day (t : Z) : Z := t / msPerDay.
Definition TimeWithinDay (t : Z) : Z := t mod msPerDay.

Definition HourFromTime (t : Z) : Z := TimeWithinDay t / 3600000.
Definition MinFromTime (t : Z) : Z := TimeWithinDay t / 60000 mod 60.
Definition SecFromTime (t : Z) : Z := TimeWithinDay t / 1000 mod 60.
Definition msFromTime (t : Z) : Z := TimeWithinDay t mod 1000.

Definition MakeTime (h mi s ms : Z) : Z :=
  h * 3600000 + mi * 60000 + s * 1000 + ms.
Definition MakeDate (day time : Z) : Z := day * msPerDay + time.

Definition InLeapYear (y : Z) : bool :=
  (y mod 4 =? 0) && (negb (y mod 100 =? 0) || (y mod 400 =? 0)).

(** Days of month [m] (1 to 12) of year [y]. *)
Definition DaysInMonth (y m : Z) : Z :=
  if m =? 2 then (if InLeapYear y then 29 else 28)
  else if (m =? 4) || (m =? 6) || (m =? 9) || (m =? 11) then 30
  else 31.

(** Year, month (1 to 12) and day of the month of a day number, in the
    proleptic Gregorian calendar. The calendar repeats every 400 years,
    146097 days; a cycle is counted from March 1st of a year divisible by
    400, and 0000-03-01 is day number -719468. [cycle_date doe] is the date
    of day [doe] of a cycle, the year counted from the cycle's first. *)
Definition cycle_date (doe : Z) : Z * Z * Z :=
  let yoe := (doe - doe / 1460 + doe / 36524 - doe / 146096) / 365 in
  let doy := doe - (365 * yoe + yoe / 4 - yoe / 100) in
  let mp := (5 * doy + 2) / 153 in
  let d := doy - (153 * mp + 2) / 5 + 1 in
  let m := if mp <? 10 then mp + 3 else mp - 9 in
  (if m <=? 2 then yoe + 1 else yoe, m, d).

Definition civil (day : Z) : Z * Z * Z :=
  let z := day + 719468 in
  let '(y, m, d) := cycle_date (z mod 146097) in
  (y + 400 * (z / 146097), m, d).

Definition YearFromTime (t : Z) : Z := (civil (Day t)).1.1.
Definition MonthFromTime (t : Z) : Z := (civil (Day t)).1.2.
Definition DateFromTime (t : Z) : Z := (civil (Day t)).2.

(** The day number of year [y], month [m] (1 to 12), day [d]. *)
Definition MakeDay (y m d : Z) : Z :=
  let y' := if m <=? 2 then y - 1 else y in
  let era := y' / 400 in
  let yoe := y' mod 400 in
  let doy := (153 * (if 2 <? m then m - 3 else m + 9) + 2) / 5 + d - 1 in
  let doe := yoe * 365 + yoe / 4 - yoe / 100 + doy in
  era * 146097 + doe - 719468.

(** The check of one day of the cycle: its date is a date of the calendar
    and [MakeDay] gives its day number back. *)
Definition cycle_ok (doe : Z) : bool :=
  let '(y, m, d) := cycle_date doe in
  (1 <=? m) && (m <=? 12) && (1 <=? d) && (d <=? DaysInMonth y m)
  && (MakeDay y m d =? doe - 719468) && (0 <=? y) && (y <=? 400).

(** [f] holds at [z], [z + 1], ..., [fuel] of them. *)
Fixpoint all_from (fuel : nat) (z : Z) (f : Z -> bool) : bool :=
  match fuel with
  | O => true
  | S k => if f z then all_from k (z + 1) f else false
  end.

(** *** Decimal fields of fixed width *)

Definition digit (n : Z) : ascii := ascii_of_N (48 + Z.to_N n).

Definition digit_val (c : ascii) : option Z :=
  let n := N_of_ascii c in
  if ((48 <=? n) && (n <=? 57))%N then Some (Z.of_N n - 48) else None.

(** [n] in [w] decimal digits, padded with zeros. *)
Fixpoint pad (w : nat) (n : Z) : string :=
  match w with
  | O => EmptyString
  | S w' => String (digit (n / 10 ^ Z.of_nat w')) (pad w' (n mod 10 ^ Z.of_nat w'))
  end.

(** Reads exactly [w] decimal digits. *)
Fixpoint read_digits (w : nat) (acc : Z) (s : string) : option (Z * string) :=
  match w with
  | O => Some (acc, s)
  | S w' =>
      match s with
      | String c s' =>
          match digit_val c with
          | Some d => read_digits w' (10 * acc + d) s'
          | None => None
          end
      | EmptyString => None
      end
  end.

Definition expect (c : ascii) (s : string) : option string :=
  match s with
  | String c' s' => if Ascii.eqb c c' then Some s' else None
  | EmptyString => None
  end.

(** *** [Date.prototype.toISOString]

    [YYYY-MM-DDTHH:mm:ss.sssZ], the year in four digits from 0 to 9999
    and otherwise as a sign and six digits. *)
Definition year_string (y : Z) : string :=
  if (0 <=? y) && (y <=? 9999) then pad 4 y
  else if y <? 0 then String "-" (pad 6 (- y))
  else String "+" (pad 6 y).

Definition format (t : Z) : string :=
  year_string (YearFromTime t)
    +:+ String "-" (pad 2 (MonthFromTime t)
    +:+ String "-" (pad 2 (DateFromTime t)
    +:+ String "T" (pad 2 (HourFromTime t)
    +:+ String ":" (pad 2 (MinFromTime t)
    +:+ String ":" (pad 2 (SecFromTime t)
    +:+ String "." (pad 3 (msFromTime t)
    +:+ "Z")))))).

(** [toISOString()] of a date with time value [tv]; throws a RangeError
    on an invalid date. *)
Definition toISOString (tv : option Z) : Completion string :=
  match tv with
  | Some t => Return (format t)
  | None => Throw (RangeError "Invalid time value")
  end.

(** *** [Date.parse]

    The Date Time String Format with all fields and the UTC designator
    [Z] has a value that ECMA-262 fixes (21.4.1.32, 21.4.3.2). *)
Definition read_year (s : string) : option (Z * string) :=
  match s with
  | String c s' =>
      if Ascii.eqb c "+" then read_digits 6 0 s'
      else if Ascii.eqb c "-" then
        '(y, r) ← read_digits 6 0 s';
        if y =? 0 then None else Some (- y, r)
      else read_digits 4 0 s
  | EmptyString => None
  end.

Definition parse_utc (s : string) : option Z :=
  '(y, s) ← read_year s;
  s ← expect "-" s;
  '(m, s) ← read_digits 2 0 s;
  s ← expect "-" s;
  '(d, s) ← read_digits 2 0 s;
  s ← expect "T" s;
  '(h, s) ← read_digits 2 0 s;
  s ← expect ":" s;
  '(mi, s) ← read_digits 2 0 s;
  s ← expect ":" s;
  '(sec, s) ← read_digits 2 0 s;
  s ← expect "." s;
  '(ms, s) ← read_digits 3 0 s;
  s ← expect "Z" s;
  if String.eqb s ""
     && (1 <=? m) && (m <=? 12) && (1 <=? d) && (d <=? DaysInMonth y m)
     && ((h <=? 23) || ((h =? 24) && (mi =? 0) && (sec =? 0) && (ms =? 0)))
     && (mi <=? 59) && (sec <=? 59)
  then Some (MakeDate (MakeDay y m d) (MakeTime h mi sec ms))
  else None.

(** [Date.parse(s)]. A string that is not in the format above is left to
    [host]: the other forms of the format (which read the local time
    zone) and the implementation's own formats. Every result is a time
    value (TimeClip). *)
Definition parse (host : string -> option Z) (s : string) : option Z :=
  match parse_utc s with
  | Some t => TimeClip t
  | None => host s ≫= TimeClip
  end.

Definition isNaN (tv : option Z) : bool :=
  match tv with Some _ => false | None => true end.

End JsDate.

(** ** The schemas *)

(** [/^[a-z0-9]+(?:-[a-z0-9]+)*$/i] of [slug.ts], the flag apart. *)
Definition alnum : Regex.re :=
  Regex.Class [("a", "z"); ("0", "9")]%char.

Definition slug_re : Regex.re :=
  Regex.Seq (Regex.Plus alnum)
            (Regex.Star (Regex.Seq (Regex.Lit "-") (Regex.Plus alnum))).

(** [`schemas:slug:${by}:${value}`] *)
Definition slug_key (by_ value : string) : string :=
  "schemas:slug:" +:+ by_ +:+ ":" +:+ value.

(** [`duplicate slug '${value}' in '${file.path}:${path.join('.')}'`] *)
Definition duplicate_message (value : string) (ctx : Ctx) : string :=
  "duplicate slug '" +:+ value +:+ "' in '" +:+ file_path (ctx_file ctx)
    +:+ ":" +:+ JsString.join "." (ctx_path ctx) +:+ "'".

Section Schemas.
Context {World : Type}.

(** [isRelativePath] and [processAsset] of [../assets]. A call of
    [processAsset] ends in a rejection with an error message or in a
    value, and may change the world. *)
Variable isRelativePath : string -> bool.
Variable processAsset :
  string -> string -> string -> string -> bool -> World ->
  (string + JsValue) * World.

(** What [Date.parse] does with the strings ECMA-262 leaves to the
    implementation. *)
Variable host_parse : string -> option Z.

(** The callback of [superRefine] in [slug.ts]. *)
Definition reserve (by_ : string) (value : string) (ctx : Ctx) (st : St World)
    : St World :=
  let key := slug_key by_ value in
  if cache_has key st
  then addIssue "custom" (duplicate_message value ctx) ctx st
  else cache_set key (file_path (ctx_file ctx)) st.

(** [slug(by = 'global', reserved = [])] *)
Definition slug (by_ : option string) (reserved : option (list string))
    : Schema World JsValue string :=
  let by_ := default "global" by_ in
  let reserved := default [] reserved in
  z.string
    |> z.min 3
    |> z.max 200
    |> z.regex slug_re true "Invalid slug"
    |> z.refine (fun value => negb (JsString.includes reserved value)) "Reserved slug"
    |> z.superRefine (reserve by_).

(** One awaited call of [processAsset(...).catch(...)], logged. *)
Definition call_processAsset (input from filename baseUrl : string)
    (isImage : bool) (st : St World) : (string + JsValue) * St World :=
  let '(r, w) := processAsset input from filename baseUrl isImage (world st) in
  (r, mkSt (issues st) (cache st) w
           (resolver_calls st ++ [mkAssetCall input from filename baseUrl isImage])).

(** [file({ allowNonRelativePath = true } = {})] *)
Definition file (allowNonRelativePath : option bool)
    : Schema World JsValue JsValue :=
  let allowNonRelativePath := default true allowNonRelativePath in
  z.string
    |> z.transform (fun value ctx st =>
         if allowNonRelativePath && negb (isRelativePath value)
         then (Return (JStr value), st)
         else
           match call_processAsset value (file_path (ctx_file ctx))
                   (output_name (ctx_output ctx)) (output_base (ctx_output ctx))
                   false st with
           | (inr v, st') => (Return v, st')
           | (inl err_message, st') =>
               (Return JNull, addIssue "custom" err_message ctx st')
           end).

(** [image({ allowNonRelativePath = false } = {})] *)
Definition image (allowNonRelativePath : option bool)
    : Schema World JsValue JsValue :=
  let allowNonRelativePath := default false allowNonRelativePath in
  z.string
    |> z.transform (fun value ctx st =>
         if allowNonRelativePath && negb (isRelativePath value)
         then (Return (JImage (mkImage value 0 0 "" 0 0)), st)
         else
           match call_processAsset value (file_path (ctx_file ctx))
                   (output_name (ctx_output ctx)) (output_base (ctx_output ctx))
                   true st with
           | (inr v, st') => (Return v, st')
           | (inl err_message, st') =>
               (Return JNull, addIssue "custom" err_message ctx st')
           end).

(** [excerpt({ length = 260 } = {})]; [value.slice] of a value that is
    not a string is a TypeError. *)
Definition excerpt (length : option Z) : Schema World JsValue string :=
  let length := default 260%Z length in
  z.custom
    |> z.transform (fun value ctx st =>
         let value :=
           match value, file_data_plain (ctx_file ctx) with
           | JNull, Some plain => JStr plain
           | _, _ => value
           end in
         match value with
         | JStr s => (Return (JsString.slice s 0 length), st)
         | JNull => (Throw (TypeError "Cannot read properties of null (reading 'slice')"), st)
         | JImage _ => (Throw (TypeError "value.slice is not a function"), st)
         end).

(** [isodate()] *)
Definition isodate : Schema World JsValue string :=
  z.string
    |> z.refine (fun value => negb (JsDate.isNaN (JsDate.parse host_parse value)))
                "Invalid date string"
    |> z.transform (fun value ctx st =>
         (JsDate.toISOString (JsDate.parse host_parse value), st)).

End Schemas.

(** A build starts with an empty cache and a file with no issue. *)
Definition initial {World} (w : World) : St World := mkSt [] ∅ w [].

(** The issues of the next file start empty; the rest of the state is the
    build's. *)
Definition next_file {World} (st : St World) : St World := set_issues [] st.

(** The state after the call of [processAsset] that a file or image schema
    makes for [value], when the call left the world [w]. *)
Definition after_call {World} (isImage : bool) (value : string) (ctx : Ctx)
    (w : World) (st : St World) : St World :=
  mkSt (issues st) (cache st) w
       (resolver_calls st
        ++ [mkAssetCall value (file_path (ctx_file ctx))
              (output_name (ctx_output ctx)) (output_base (ctx_output ctx))
              isImage]).


(** The constraints of the slug contract on a value: length, pattern and
    reserved words. *)
Definition slug_constraints (reserved : list string) (value : string) : Prop :=
  (3 <= JsString.len value <= 200)%nat
  /\ Regex.matches true slug_re value
  /\ ~ In value reserved.

(** The same constraints as the chain of checks of [slug] computes them. *)
Definition syntax_ok (reserved : list string) (value : string) : bool :=
  (3 <=? JsString.len value)%nat && (JsString.len value <=? 200)%nat
  && Regex.test true slug_re value
  && negb (JsString.includes reserved value).

(** The text an excerpt is cut from: the declared value when there is one,
    the plain text of the file otherwise. *)
Definition excerpt_text (value : JsValue) (ctx : Ctx) : option string :=
  match value with
  | JStr s => Some s
  | JNull => file_data_plain (ctx_file ctx)
  | JImage _ => None
  end.

(** ** Sample files, used to run the schemas on concrete inputs *)

Definition sample_output : Output := mkOutput "[name]-[hash:8].[ext]" "/static/".

Definition post_a : Ctx :=
  mkCtx ["slug"] (mkVFile "posts/a.md" (Some "First post.")) sample_output.

Definition post_b : Ctx :=
  mkCtx ["slug"] (mkVFile "posts/b.md" None) sample_output.

Definition cover_of_a : Ctx :=
  mkCtx ["cover"] (mkVFile "posts/a.md" (Some "First post.")) sample_output.

(** A resolver for a world with no file at all, and a path test that takes
    what starts with a letter and has a colon early on for a URL. *)
Definition no_such_file (input from filename baseUrl : string) (isImage : bool)
    (w : unit) : (string + JsValue) * unit :=
  (inl ("ENOENT: no such file or directory, open '" +:+ input +:+ "'"), w).

Definition sample_isRelativePath (url : string) : bool :=
  negb (String.prefix "https:" url || String.prefix "/" url).

Definition no_host_format (s : string) : option Z := None.

(** ** The shape of a slug

    What the pattern of [slug.ts] asks of a string, said without a pattern:
    it is not empty, it is made of ASCII letters, digits and hyphens, and no
    hyphen comes first, last or right after another. [slug_scan] reads the
    same left to right, remembering whether the code unit before was a
    letter or a digit. *)

Definition is_alnum (c : ascii) : bool :=
  JsString.in_range "a" "z" c || JsString.in_range "A" "Z" c
  || JsString.in_range "0" "9" c.

Definition is_hyphen (c : ascii) : bool := Ascii.eqb c "-".

Fixpoint slug_scan (after_alnum : bool) (s : string) : bool :=
  match s with
  | EmptyString => after_alnum
  | String c s' =>
      if is_alnum c then slug_scan true s'
      else if is_hyphen c then after_alnum && slug_scan false s'
      else false
  end.

Fixpoint all_chars (p : ascii -> bool) (s : string) : bool :=
  match s with
  | EmptyString => true
  | String c s' => p c && all_chars p s'
  end.

Fixpoint ends_with_hyphen (s : string) : bool :=
  match s with
  | EmptyString => false
  | String c EmptyString => is_hyphen c
  | String _ s' => ends_with_hyphen s'
  end.

Definition slug_shape (s : string) : bool :=
  negb (String.eqb s "")
  && all_chars (fun c => is_alnum c || is_hyphen c) s
  && negb (String.prefix "-" s)
  && negb (ends_with_hyphen s)
  && negb (JsString.contains "--" s).

Definition no_colon (s : string) : bool :=
  all_chars (fun c => negb (Ascii.eqb c ":")) s.

(** ** The two asset schemas side by side *)

Section AssetSchema.
Context {World : Type}.
Variable isRelativePath : string -> bool.
Variable processAsset :
  string -> string -> string -> string -> bool -> World ->
  (string + JsValue) * World.

(** [image] or [file], by the flag the schema passes to [processAsset]. *)
Definition asset_schema (isImage : bool)
    : option bool -> Schema World JsValue JsValue :=
  if isImage then image isRelativePath processAsset
  else file isRelativePath processAsset.

(** The test of the first line of the two callbacks,
    [allowNonRelativePath && !isRelativePath(value)], with the default of
    each schema. *)
Definition kept_as_is (isImage : bool) (allow : option bool) (value : string)
    : bool :=
  (if isImage then default false allow else default true allow)
  && negb (isRelativePath value).

End AssetSchema.

(** The call of [processAsset] the schema makes for [value]. *)
Definition the_call (isImage : bool) (value : string) (ctx : Ctx) : AssetCall :=
  mkAssetCall value (file_path (ctx_file ctx)) (output_name (ctx_output ctx))
    (output_base (ctx_output ctx)) isImage.


(** * Properties *)

(** ** Regular expressions: the matcher decides the denotation *)

Module RegexFacts.
Import JsString Regex.

Lemma append_nil_inv (s1 s2 : string) : s1 +:+ s2 = "" -> s1 = "" /\ s2 = "".
Proof. destruct s1; simpl; [tauto | discriminate]. Qed.

Lemma append_nil_l (s : string) : "" +:+ s = s.
Proof. reflexivity. Qed.

Lemma append_cons (c : ascii) (s t : string) : String c s +:+ t = String c (s +:+ t).
Proof. reflexivity. Qed.

Lemma matches_nil_nullable i r s : matches i r s -> s = "" -> nullable r = true.
Proof.
  induction 1; intros E; simpl; try discriminate; auto.
  - apply append_nil_inv in E as [-> ->]. rewrite IHmatches1, IHmatches2; auto.
  - rewrite IHmatches; auto.
  - rewrite IHmatches, orb_true_r; auto.
  - apply append_nil_inv in E as [-> ->]. auto.
Qed.

Lemma nullable_matches i r : nullable r = true -> matches i r "".
Proof.
  induction r; simpl; intros E; try discriminate.
  - constructor.
  - apply andb_true_iff in E as [E1 E2].
    change "" with ("" +:+ ""). constructor; auto.
  - apply orb_true_iff in E as [E|E]; [apply MAltL | apply MAltR]; auto.
  - change "" with ("" +:+ ""). constructor; auto. constructor.
  - constructor.
Qed.

Lemma deriv_sound i d r : forall s, matches i (deriv i d r) s -> matches i r (String d s).
Proof.
  induction r; simpl; intros s M.
  - inversion M.
  - inversion M.
  - destruct (lit_matches i c d) eqn:E; inversion M; subst. now constructor.
  - destruct (class_matches i ranges d) eqn:E; inversion M; subst. now constructor.
  - destruct (nullable r1) eqn:N.
    + inversion M as [| | | | ? ? ? M1 | ? ? ? M2 | | |]; subst.
      * inversion M1; subst.
        change (String d (s1 +:+ s2)) with (String d s1 +:+ s2). constructor; auto.
      * change (String d s) with ("" +:+ String d s).
        constructor; auto. now apply nullable_matches.
    + inversion M; subst.
      change (String d (s1 +:+ s2)) with (String d s1 +:+ s2). constructor; auto.
  - inversion M; subst; [apply MAltL | apply MAltR]; auto.
  - inversion M; subst.
    change (String d (s1 +:+ s2)) with (String d s1 +:+ s2). constructor; auto.
  - inversion M; subst.
    change (String d (s1 +:+ s2)) with (String d s1 +:+ s2). constructor; auto.
Qed.

Lemma deriv_complete i d r s' :
  matches i r s' -> forall s, s' = String d s -> matches i (deriv i d r) s.
Proof.
  induction 1; intros t E; simpl.
  - discriminate.
  - injection E as -> <-. rewrite H. constructor.
  - injection E as -> <-. rewrite H. constructor.
  - destruct s1 as [|c s1]; rewrite ?append_nil_l, ?append_cons in E.
    + subst s2. rewrite (matches_nil_nullable _ _ _ H eq_refl).
      apply MAltR; auto.
    + injection E as -> <-.
      destruct (nullable r1); [apply MAltL |]; constructor; auto.
  - apply MAltL; auto.
  - apply MAltR; auto.
  - destruct s1 as [|c s1]; rewrite ?append_nil_l, ?append_cons in E.
    + subst s2. specialize (IHmatches2 t eq_refl). simpl in IHmatches2. auto.
    + injection E as -> <-. constructor; auto.
  - discriminate.
  - destruct s1 as [|c s1]; rewrite ?append_nil_l, ?append_cons in E.
    + subst s2. specialize (IHmatches2 t eq_refl). simpl in IHmatches2. auto.
    + injection E as -> <-. constructor; auto.
Qed.

Lemma test_matches i r s : test i r s = true <-> matches i r s.
Proof.
  revert r; induction s as [|d s IH]; intros r; simpl.
  - split; [apply nullable_matches | intros M; eapply matches_nil_nullable; eauto].
  - rewrite IH. split; [apply deriv_sound | intros M; eapply deriv_complete; eauto].
Qed.

(** With the [i] flag a match does not depend on letter case. *)
Lemma upper_lower (d : ascii) : to_upper (to_lower d) = to_upper d.
Proof. destruct d as [[] [] [] [] [] [] [] []]; reflexivity. Qed.

Lemma lower_lower (d : ascii) : to_lower (to_lower d) = to_lower d.
Proof. destruct d as [[] [] [] [] [] [] [] []]; reflexivity. Qed.

Lemma upper_or_lower (d : ascii) : to_upper d = d \/ to_lower d = d.
Proof. destruct d as [[] [] [] [] [] [] [] []]; auto. Qed.

Lemma lit_matches_lower c d : lit_matches true c (to_lower d) = lit_matches true c d.
Proof. unfold lit_matches. now rewrite upper_lower. Qed.

Lemma class_matches_lower rs d :
  class_matches true rs (to_lower d) = class_matches true rs d.
Proof.
  unfold class_matches. induction rs as [|[lo hi] rs IH]; cbn [existsb]; auto.
  rewrite IH. f_equal. cbn [andb].
  rewrite upper_lower, lower_lower.
  destruct (upper_or_lower d) as [E|E]; rewrite ?E;
    destruct (in_range lo hi d), (in_range lo hi (to_upper d)) eqn:U,
      (in_range lo hi (to_lower d)) eqn:L; try reflexivity;
    rewrite E in *; congruence.
Qed.

Lemma deriv_lower d r : deriv true (to_lower d) r = deriv true d r.
Proof.
  induction r; cbn [deriv];
    rewrite ?lit_matches_lower, ?class_matches_lower, ?IHr1, ?IHr2, ?IHr; reflexivity.
Qed.

Lemma test_toLowerCase r s : test true r (toLowerCase s) = test true r s.
Proof.
  revert r; induction s as [|d s IH]; intros r; simpl; auto.
  now rewrite deriv_lower.
Qed.

Lemma toLowerCase_length s : String.length (toLowerCase s) = String.length s.
Proof. induction s; simpl; auto. Qed.

End RegexFacts.

(** ** The state and what the callbacks do to it *)

Section StateFacts.
Context {World : Type}.
Implicit Types (st : St World) (ctx : Ctx).

Lemma reported_keep st st' : issues st' = issues st -> reported st st' = false.
Proof. unfold reported. intros ->. apply Nat.ltb_irrefl. Qed.

Lemma reported_grow st st' i : issues st' = issues st ++ [i] -> reported st st' = true.
Proof.
  unfold reported. intros ->. rewrite length_app; simpl. apply Nat.ltb_lt. lia.
Qed.

Lemma reported_same st : reported st st = false.
Proof. now apply reported_keep. Qed.

Lemma reported_addIssue c m ctx st : reported st (addIssue c m ctx st) = true.
Proof.
  unfold reported, addIssue, set_issues; simpl.
  rewrite length_app; simpl. apply Nat.ltb_lt. lia.
Qed.

Lemma reported_cache_set k v st : reported st (cache_set k v st) = false.
Proof. unfold reported, cache_set; simpl. apply Nat.ltb_irrefl. Qed.

Lemma cache_has_true k st : cache_has k st = true <-> is_Some (cache st !! k).
Proof.
  unfold cache_has. destruct (cache st !! k) eqn:E; split; intros H.
  - by eexists.
  - reflexivity.
  - discriminate.
  - destruct H as [? ?]; discriminate.
Qed.

Lemma cache_has_false k st : cache_has k st = false <-> cache st !! k = None.
Proof. unfold cache_has. destruct (cache st !! k); split; congruence. Qed.

End StateFacts.

(** ** The slug schema, step by step *)

Section SlugFacts.
Context {World : Type}.
Implicit Types (st : St World) (ctx : Ctx) (value : string).

Lemma includes_In (arr : list string) value :
  JsString.includes arr value = true <-> In value arr.
Proof.
  unfold JsString.includes. rewrite existsb_exists. split.
  - intros (x & Hx & E). apply String.eqb_eq in E. now subst.
  - intros H. exists value. split; auto. apply String.eqb_refl.
Qed.

Lemma syntax_ok_constraints reserved value :
  syntax_ok reserved value = true <-> slug_constraints reserved value.
Proof.
  unfold syntax_ok, slug_constraints.
  rewrite !andb_true_iff, negb_true_iff, RegexFacts.test_matches.
  rewrite !Nat.leb_le, <- not_true_iff_false, includes_In. tauto.
Qed.

(** A value that meets the constraints reaches the reservation. *)
Lemma slug_reaches_reserve by_ reserved value ctx st :
  syntax_ok (default [] reserved) value = true ->
  slug by_ reserved (JStr value) ctx st =
    (if cache_has (slug_key (default "global" by_) value) st
     then Dirty value else Valid value,
     reserve (default "global" by_) value ctx st).
Proof.
  unfold syntax_ok. rewrite !andb_true_iff, negb_true_iff.
  intros [[[H1 H2] H3] H4].
  unfold slug, z.superRefine, z.refine, z.superRefine, z.regex, z.max, z.min,
    z.check, z.string.
  rewrite H1, H2, H3, H4. cbn [negb]. rewrite reported_same.
  unfold reserve. destruct (cache_has _ st).
  - now rewrite reported_addIssue.
  - now rewrite reported_cache_set.
Qed.

(** A value that fails one stops before it: the issues are those of the
    checks, and the cache is as it was. *)
Lemma slug_stops_before_reserve by_ reserved value ctx st :
  syntax_ok (default [] reserved) value = false ->
  exists more,
    more <> []
    /\ Forall (fun i => In (message i)
                 ["String must contain at least 3 character(s)";
                  "String must contain at most 200 character(s)";
                  "Invalid slug"; "Reserved slug"]) more
    /\ slug by_ reserved (JStr value) ctx st =
         (Dirty value, set_issues (issues st ++ more) st).
Proof.
  unfold syntax_ok. intros H.
  unfold slug, z.superRefine, z.refine, z.superRefine, z.regex, z.max, z.min,
    z.check, z.string.
  destruct (3 <=? JsString.len value)%nat eqn:H1;
    destruct (JsString.len value <=? 200)%nat eqn:H2;
    destruct (Regex.test true slug_re value) eqn:H3;
    destruct (JsString.includes (default [] reserved) value) eqn:H4;
    try discriminate H; cbn [negb];
    rewrite ?reported_same, ?reported_addIssue;
    unfold addIssue, set_issues; cbn [issues cache world resolver_calls];
    rewrite <- ?app_assoc; cbn [app];
    (eexists; split; [| split; [| reflexivity]];
     [discriminate | repeat constructor; cbn; tauto]).
Qed.

End SlugFacts.

(** ** Reserving a slug *)

Section SlugClaims.
Context {World : Type}.
Implicit Types (st : St World) (ctx first second : Ctx) (value : string).

Lemma duplicate_message_head value ctx :
  exists t, duplicate_message value ctx = String "d" t.
Proof. eexists. reflexivity. Qed.

Lemma first_reservation by_ reserved value ctx st :
  slug_constraints (default [] reserved) value ->
  cache st !! slug_key (default "global" by_) value = None ->
  slug by_ reserved (JStr value) ctx st =
    (Valid value,
     cache_set (slug_key (default "global" by_) value) (file_path (ctx_file ctx)) st).
Proof.
  intros C F. apply syntax_ok_constraints in C.
  rewrite slug_reaches_reserve by assumption.
  unfold reserve. apply cache_has_false in F. now rewrite F.
Qed.

Lemma later_reservation by_ reserved value ctx st prev :
  slug_constraints (default [] reserved) value ->
  cache st !! slug_key (default "global" by_) value = Some prev ->
  slug by_ reserved (JStr value) ctx st =
    (Dirty value, addIssue "custom" (duplicate_message value ctx) ctx st).
Proof.
  intros C F. apply syntax_ok_constraints in C.
  rewrite slug_reaches_reserve by assumption.
  assert (H : cache_has (slug_key (default "global" by_) value) st = true)
    by (apply cache_has_true; eauto).
  unfold reserve. now rewrite H.
Qed.

(** C1: two reservations of the same (namespace, value) pair in one build,
    for a value that meets the slug constraints and a key not yet taken:
    whichever of the two files comes first succeeds without an issue, the
    other gets exactly one issue, the duplicate one, and the cache keeps
    the path of the file that came first. *)
Theorem slug_reserved_once by_ reserved value ctx1 ctx2 st :
  slug_constraints (default [] reserved) value ->
  cache st !! slug_key (default "global" by_) value = None ->
  forall first second,
    (first, second) = (ctx1, ctx2) \/ (first, second) = (ctx2, ctx1) ->
    let key := slug_key (default "global" by_) value in
    let r1 := slug by_ reserved (JStr value) first st in
    let r2 := slug by_ reserved (JStr value) second (next_file r1.2) in
    r1.1 = Valid value
    /\ issues r1.2 = issues st
    /\ cache r1.2 !! key = Some (file_path (ctx_file first))
    /\ r2.1 = Dirty value
    /\ issues r2.2 =
         [mkIssue "custom" (duplicate_message value second) (ctx_path second)]
    /\ cache r2.2 = cache r1.2
    /\ cache r2.2 !! key = Some (file_path (ctx_file first)).
Proof.
  intros C F first second _ key r1 r2.
  assert (E1 : r1 = (Valid value, cache_set key (file_path (ctx_file first)) st))
    by (apply first_reservation; assumption).
  assert (K : cache (next_file r1.2) !! key = Some (file_path (ctx_file first))).
  { rewrite E1. cbn. apply lookup_insert_eq. }
  assert (E2 : r2 = (Dirty value,
                     addIssue "custom" (duplicate_message value second) second
                              (next_file r1.2)))
    by (eapply later_reservation; eassumption).
  rewrite E2. rewrite E1 in *. cbn in *. repeat split; auto.
Qed.

(** C2, as the code has it: on a collision the schema reports one issue at
    the field's path whose message is made of the value, the path of the
    file being parsed and the field path; the message is the same whatever
    path the cache holds, and the cache keeps that path. *)
Theorem duplicate_issue_names_current_file by_ reserved value ctx st prev :
  slug_constraints (default [] reserved) value ->
  cache st !! slug_key (default "global" by_) value = Some prev ->
  let r := slug by_ reserved (JStr value) ctx st in
  r.1 = Dirty value
  /\ issues r.2 =
       issues st
       ++ [mkIssue "custom"
             ("duplicate slug '" +:+ value +:+ "' in '" +:+ file_path (ctx_file ctx)
                +:+ ":" +:+ JsString.join "." (ctx_path ctx) +:+ "'")
             (ctx_path ctx)]
  /\ cache r.2 = cache st
  /\ cache r.2 !! slug_key (default "global" by_) value = Some prev.
Proof.
  intros C F r. unfold r.
  erewrite later_reservation by eassumption. cbn. auto.
Qed.

(** C4: a string gets through the checks of the slug schema, to the
    reservation, exactly when it meets the constraints (with the key free
    it is then valid); a string that fails one is dirty with issues of the
    checks only and the cache is not touched; "My Post!" fails with the
    issue of the pattern. *)
Theorem slug_accepts_iff by_ reserved value ctx st :
  let key := slug_key (default "global" by_) value in
  let r := slug by_ reserved (JStr value) ctx st in
  (slug_constraints (default [] reserved) value ->
     r = (if cache_has key st then Dirty value else Valid value,
          reserve (default "global" by_) value ctx st))
  /\ (cache st !! key = None ->
        (r.1 = Valid value <-> slug_constraints (default [] reserved) value))
  /\ (~ slug_constraints (default [] reserved) value ->
        r.1 = Dirty value
        /\ cache r.2 = cache st
        /\ (exists more, more <> [] /\ issues r.2 = issues st ++ more
              /\ Forall (fun i => message i <> duplicate_message value ctx) more))
  /\ slug by_ reserved (JStr "My Post!") ctx st =
       (Dirty "My Post!", addIssue "invalid_string" "Invalid slug" ctx st).
Proof.
  intros key r.
  assert (Hfail : ~ slug_constraints (default [] reserved) value ->
            r.1 = Dirty value /\ cache r.2 = cache st
            /\ (exists more, more <> [] /\ issues r.2 = issues st ++ more
                /\ Forall (fun i => message i <> duplicate_message value ctx) more)).
  { intros N. rewrite <- syntax_ok_constraints in N.
    apply not_true_is_false in N.
    destruct (slug_stops_before_reserve by_ reserved value ctx st N)
      as (more & Hne & Hmsg & E).
    unfold r. rewrite E. cbn. repeat split; auto.
    exists more. repeat split; auto.
    eapply Forall_impl; [exact Hmsg |].
    intros i Hi D. cbn beta in Hi. rewrite D in Hi.
    destruct (duplicate_message_head value ctx) as [t Ht]. rewrite Ht in Hi.
    cbn in Hi. intuition discriminate. }
  split; [| split; [| split]].
  - intros C. apply syntax_ok_constraints in C.
    now apply slug_reaches_reserve.
  - intros F. split.
    + intros V.
      destruct (syntax_ok (default [] reserved) value) eqn:S.
      * now apply syntax_ok_constraints.
      * assert (N : ~ slug_constraints (default [] reserved) value).
        { rewrite <- syntax_ok_constraints. congruence. }
        destruct (Hfail N) as [D _]. congruence.
    + intros C. unfold r. erewrite first_reservation by eassumption. reflexivity.
  - exact Hfail.
  - reflexivity.
Qed.

Lemma slug_key_inj by_ v1 v2 : slug_key by_ v1 = slug_key by_ v2 -> v1 = v2.
Proof.
  unfold slug_key. intros E.
  repeat (apply (inj (String.app _)) in E). exact E.
Qed.

Lemma constraints_same_letters reserved v1 v2 :
  slug_constraints reserved v1 ->
  JsString.toLowerCase v1 = JsString.toLowerCase v2 ->
  ~ In v2 reserved ->
  slug_constraints reserved v2.
Proof.
  intros (L & M & _) E R. repeat split; auto.
  - unfold JsString.len in *.
    rewrite <- (RegexFacts.toLowerCase_length v2), <- E,
      RegexFacts.toLowerCase_length. lia.
  - unfold JsString.len in *.
    rewrite <- (RegexFacts.toLowerCase_length v2), <- E,
      RegexFacts.toLowerCase_length. lia.
  - apply RegexFacts.test_matches. apply RegexFacts.test_matches in M.
    now rewrite <- RegexFacts.test_toLowerCase, <- E, RegexFacts.test_toLowerCase.
Qed.

(** C9: two values that differ only in the case of their letters, reserved
    in one namespace one after the other: both pass the pattern, their
    cache keys differ, both reservations succeed and neither reports an
    issue; the cache then holds both keys. *)
Theorem slug_uniqueness_is_case_sensitive by_ reserved v1 v2 ctx1 ctx2 st :
  slug_constraints (default [] reserved) v1 ->
  ~ In v2 (default [] reserved) ->
  v1 <> v2 ->
  JsString.toLowerCase v1 = JsString.toLowerCase v2 ->
  cache st !! slug_key (default "global" by_) v1 = None ->
  cache st !! slug_key (default "global" by_) v2 = None ->
  let k1 := slug_key (default "global" by_) v1 in
  let k2 := slug_key (default "global" by_) v2 in
  let r1 := slug by_ reserved (JStr v1) ctx1 st in
  let r2 := slug by_ reserved (JStr v2) ctx2 (next_file r1.2) in
  Regex.test true slug_re v1 = true
  /\ Regex.test true slug_re v2 = true
  /\ k1 <> k2
  /\ r1.1 = Valid v1 /\ issues r1.2 = issues st
  /\ r2.1 = Valid v2 /\ issues r2.2 = []
  /\ cache r2.2 !! k1 = Some (file_path (ctx_file ctx1))
  /\ cache r2.2 !! k2 = Some (file_path (ctx_file ctx2)).
Proof.
  intros C1 R2 Ne E F1 F2 k1 k2 r1 r2.
  pose proof (constraints_same_letters _ _ _ C1 E R2) as C2.
  assert (K : k1 <> k2) by (intros Ek; apply Ne; eapply slug_key_inj; exact Ek).
  assert (E1 : r1 = (Valid v1, cache_set k1 (file_path (ctx_file ctx1)) st))
    by (apply first_reservation; assumption).
  assert (F2' : cache (next_file r1.2) !! k2 = None).
  { rewrite E1. cbn. rewrite lookup_insert_ne; assumption. }
  assert (E2 : r2 = (Valid v2, cache_set k2 (file_path (ctx_file ctx2))
                                  (next_file r1.2)))
    by (apply first_reservation; assumption).
  rewrite E2. rewrite E1 in *. cbn.
  destruct C1 as (_ & M1 & _), C2 as (_ & M2 & _).
  apply RegexFacts.test_matches in M1, M2.
  repeat split; auto.
  - rewrite lookup_insert_ne by congruence. apply lookup_insert_eq.
  - apply lookup_insert_eq.
Qed.

End SlugClaims.

Lemma my_post_meets_constraints : slug_constraints [] "my-post".
Proof. apply syntax_ok_constraints. vm_compute. reflexivity. Qed.

(** The two reservations of "my-post", [posts/a.md] first. *)
Lemma slug_reserved_once_witness :
  slug_constraints [] "my-post"
  /\ let r1 := slug None None (JStr "my-post") post_a (initial tt) in
     let r2 := slug None None (JStr "my-post") post_b (next_file r1.2) in
     r1.1 = Valid "my-post"
     /\ issues r1.2 = []
     /\ r2.1 = Dirty "my-post"
     /\ issues r2.2 =
          [mkIssue "custom" "duplicate slug 'my-post' in 'posts/b.md:slug'" ["slug"]]
     /\ cache r2.2 !! "schemas:slug:global:my-post" = Some "posts/a.md".
Proof.
  split; [exact my_post_meets_constraints |].
  destruct (slug_reserved_once (World := unit) None None "my-post" post_a post_b
              (initial tt) my_post_meets_constraints eq_refl post_a post_b
              (or_introl eq_refl))
    as (H1 & H2 & _ & H4 & H5 & _ & H7).
  repeat split; assumption.
Defined.

(** C2, as stated, fails: [posts/a.md] reserves "my-post", [posts/b.md]
    collides; the cache holds [posts/a.md], and the one issue reported
    does not mention it. *)
Lemma duplicate_issue_omits_first_path :
  let r1 := slug None None (JStr "my-post") post_a (initial tt) in
  let r2 := slug None None (JStr "my-post") post_b (next_file r1.2) in
  cache r1.2 !! slug_key "global" "my-post" = Some "posts/a.md"
  /\ issues r2.2 =
       [mkIssue "custom" "duplicate slug 'my-post' in 'posts/b.md:slug'" ["slug"]]
  /\ JsString.contains "posts/a.md"
       "duplicate slug 'my-post' in 'posts/b.md:slug'" = false.
Proof. vm_compute. repeat split; reflexivity. Qed.

Lemma duplicate_issue_names_current_file_witness :
  let st := cache_set "schemas:slug:global:my-post" "posts/a.md" (initial tt) in
  let r := slug None None (JStr "my-post") post_b st in
  slug_constraints [] "my-post"
  /\ cache st !! "schemas:slug:global:my-post" = Some "posts/a.md"
  /\ r.1 = Dirty "my-post"
  /\ issues r.2 =
       [mkIssue "custom" "duplicate slug 'my-post' in 'posts/b.md:slug'" ["slug"]]
  /\ cache r.2 !! "schemas:slug:global:my-post" = Some "posts/a.md".
Proof.
  intros st r.
  split; [exact my_post_meets_constraints |].
  split; [reflexivity |].
  destruct (duplicate_issue_names_current_file (World := unit) None None
              "my-post" post_b st "posts/a.md" my_post_meets_constraints eq_refl)
    as (H1 & H2 & _ & H4).
  repeat split; assumption.
Defined.

Lemma my_post_bang_fails_constraints : ~ slug_constraints [] "My Post!".
Proof. rewrite <- syntax_ok_constraints. vm_compute. discriminate. Qed.

(** "my-post" is accepted in a fresh build; "My Post!" is not, and the
    cache stays empty. *)
Lemma slug_accepts_iff_witness :
  slug None None (JStr "my-post") post_a (initial tt) =
    (Valid "my-post", cache_set "schemas:slug:global:my-post" "posts/a.md" (initial tt))
  /\ (slug None None (JStr "My Post!") post_a (initial tt)).1 = Dirty "My Post!"
  /\ cache (slug None None (JStr "My Post!") post_a (initial tt)).2 = ∅.
Proof.
  split.
  - exact (proj1 (slug_accepts_iff (World := unit) None None "my-post" post_a
                    (initial tt)) my_post_meets_constraints).
  - destruct (proj1 (proj2 (proj2 (slug_accepts_iff (World := unit) None None
                 "My Post!" post_a (initial tt)))) my_post_bang_fails_constraints)
      as (H1 & H2 & _).
    split; assumption.
Defined.

(** "My-Post" after "my-post": two entries, no issue. *)
Lemma slug_uniqueness_is_case_sensitive_witness :
  let r1 := slug None None (JStr "my-post") post_a (initial tt) in
  let r2 := slug None None (JStr "My-Post") post_b (next_file r1.2) in
  slug_constraints [] "my-post"
  /\ "my-post" <> "My-Post"
  /\ JsString.toLowerCase "my-post" = JsString.toLowerCase "My-Post"
  /\ r1.1 = Valid "my-post" /\ issues r1.2 = []
  /\ r2.1 = Valid "My-Post" /\ issues r2.2 = []
  /\ cache r2.2 !! "schemas:slug:global:my-post" = Some "posts/a.md"
  /\ cache r2.2 !! "schemas:slug:global:My-Post" = Some "posts/b.md".
Proof.
  intros r1 r2.
  assert (Ne : "my-post" <> "My-Post") by discriminate.
  destruct (slug_uniqueness_is_case_sensitive (World := unit) None None
              "my-post" "My-Post" post_a post_b (initial tt)
              my_post_meets_constraints (fun H : In "My-Post" [] => H) Ne
              eq_refl eq_refl eq_refl)
    as (_ & _ & _ & H4 & H5 & H6 & H7 & H8 & H9).
  split; [exact my_post_meets_constraints |].
  split; [exact Ne |].
  split; [reflexivity |].
  exact (conj H4 (conj H5 (conj H6 (conj H7 (conj H8 H9))))).
Defined.

(** ** File and image references *)

Section AssetClaims.
Context {World : Type}.
Variable isRelativePath : string -> bool.
Variable processAsset :
  string -> string -> string -> string -> bool -> World ->
  (string + JsValue) * World.
Implicit Types (st : St World) (ctx : Ctx) (value : string).

Lemma file_resolves allow value ctx st :
  default true allow && negb (isRelativePath value) = false ->
  file isRelativePath processAsset allow (JStr value) ctx st =
    let '(r, w) := processAsset value (file_path (ctx_file ctx))
                     (output_name (ctx_output ctx)) (output_base (ctx_output ctx))
                     false (world st) in
    match r with
    | inr v => (Valid v, after_call false value ctx w st)
    | inl m => (Dirty JNull, addIssue "custom" m ctx (after_call false value ctx w st))
    end.
Proof.
  intros H. unfold file, z.transform, z.string, call_processAsset.
  rewrite H.
  destruct (processAsset _ _ _ _ _ _) as [[m|v] w].
  - erewrite reported_grow by reflexivity. reflexivity.
  - erewrite reported_keep by reflexivity. reflexivity.
Qed.

Lemma image_resolves allow value ctx st :
  default false allow && negb (isRelativePath value) = false ->
  image isRelativePath processAsset allow (JStr value) ctx st =
    let '(r, w) := processAsset value (file_path (ctx_file ctx))
                     (output_name (ctx_output ctx)) (output_base (ctx_output ctx))
                     true (world st) in
    match r with
    | inr v => (Valid v, after_call true value ctx w st)
    | inl m => (Dirty JNull, addIssue "custom" m ctx (after_call true value ctx w st))
    end.
Proof.
  intros H. unfold image, z.transform, z.string, call_processAsset.
  rewrite H.
  destruct (processAsset _ _ _ _ _ _) as [[m|v] w].
  - erewrite reported_grow by reflexivity. reflexivity.
  - erewrite reported_keep by reflexivity. reflexivity.
Qed.

Lemma file_keeps_path allow value ctx st :
  default true allow = true ->
  isRelativePath value = false ->
  file isRelativePath processAsset allow (JStr value) ctx st = (Valid (JStr value), st).
Proof.
  intros A R. unfold file, z.transform, z.string.
  rewrite A, R. cbn [andb negb]. now rewrite reported_same.
Qed.

Lemma image_wraps_path allow value ctx st :
  default false allow = true ->
  isRelativePath value = false ->
  image isRelativePath processAsset allow (JStr value) ctx st =
    (Valid (JImage (mkImage value 0 0 "" 0 0)), st).
Proof.
  intros A R. unfold image, z.transform, z.string.
  rewrite A, R. cbn [andb negb]. now rewrite reported_same.
Qed.

(** C5, as the code has it: for a path that is not relative, a file schema
    that allows such paths returns the string unchanged and an image schema
    that allows them returns an Image record whose [src] is the string;
    neither calls the resolver nor changes the state. The file schema
    allows such paths unless told otherwise; the image schema does not, and
    by default hands the path to the resolver. *)
Theorem non_relative_path_is_kept value ctx st :
  isRelativePath value = false ->
  file isRelativePath processAsset (Some true) (JStr value) ctx st
    = (Valid (JStr value), st)
  /\ file isRelativePath processAsset None (JStr value) ctx st
    = (Valid (JStr value), st)
  /\ (exists i, image isRelativePath processAsset (Some true) (JStr value) ctx st
                = (Valid (JImage i), st) /\ src i = value)
  /\ file isRelativePath processAsset None = file isRelativePath processAsset (Some true)
  /\ image isRelativePath processAsset None = image isRelativePath processAsset (Some false)
  /\ resolver_calls (image isRelativePath processAsset None (JStr value) ctx st).2
     = resolver_calls st
       ++ [mkAssetCall value (file_path (ctx_file ctx))
             (output_name (ctx_output ctx)) (output_base (ctx_output ctx)) true].
Proof.
  intros R. repeat split.
  - now apply file_keeps_path.
  - now apply file_keeps_path.
  - eexists. split; [now apply image_wraps_path | reflexivity].
  - rewrite image_resolves by reflexivity.
    destruct (processAsset _ _ _ _ _ _) as [[m|v] w]; reflexivity.
Qed.

(** C6: when the resolver is called for a file or an image reference and
    fails with a message, the schema returns null with a dirty, not an
    aborted, result and no exception; the issues of the file grow by
    exactly one, at the field's path, with the resolver's message; the
    cache is as it was. *)
Theorem failed_asset_becomes_null allow value ctx st (isImage : bool) msg w :
  (if isImage then default false allow else default true allow)
    && negb (isRelativePath value) = false ->
  processAsset value (file_path (ctx_file ctx)) (output_name (ctx_output ctx))
    (output_base (ctx_output ctx)) isImage (world st) = (inl msg, w) ->
  let r := if isImage
           then image isRelativePath processAsset allow (JStr value) ctx st
           else file isRelativePath processAsset allow (JStr value) ctx st in
  r.1 = Dirty JNull
  /\ issues r.2 = issues st ++ [mkIssue "custom" msg (ctx_path ctx)]
  /\ cache r.2 = cache st.
Proof.
  intros A F r. subst r. destruct isImage.
  - rewrite image_resolves, F by assumption. auto.
  - rewrite file_resolves, F by assumption. auto.
Qed.

(** C10: for a path that is not relative, the image schema that allows such
    paths returns the record with the path as [src], zero for the four
    dimensions and an empty [blurDataURL]; the resolver is not called. *)
Theorem image_of_non_relative_path value ctx st :
  isRelativePath value = false ->
  image isRelativePath processAsset (Some true) (JStr value) ctx st =
    (Valid (JImage {| src := value; width := 0; height := 0;
                      blurDataURL := ""; blurWidth := 0; blurHeight := 0 |}),
     st).
Proof. intros R. now apply image_wraps_path. Qed.

End AssetClaims.

(** C5, as stated, fails for images: what the image schema returns for a
    URL is a record, not the URL. *)
Lemma image_does_not_return_the_path :
  sample_isRelativePath "https://example.com/a.png" = false
  /\ (image sample_isRelativePath no_such_file (Some true)
        (JStr "https://example.com/a.png") cover_of_a (initial tt)).1
     = Valid (JImage (mkImage "https://example.com/a.png" 0 0 "" 0 0))
  /\ (image sample_isRelativePath no_such_file (Some true)
        (JStr "https://example.com/a.png") cover_of_a (initial tt)).1
     <> Valid (JStr "https://example.com/a.png").
Proof. vm_compute. split; [reflexivity | split; [reflexivity | discriminate]]. Qed.

Lemma non_relative_path_is_kept_witness :
  sample_isRelativePath "https://example.com/a.pdf" = false
  /\ file sample_isRelativePath no_such_file None
       (JStr "https://example.com/a.pdf") cover_of_a (initial tt)
     = (Valid (JStr "https://example.com/a.pdf"), initial tt).
Proof.
  split; [reflexivity |].
  exact (proj1 (proj2 (non_relative_path_is_kept sample_isRelativePath no_such_file
                         "https://example.com/a.pdf" cover_of_a (initial tt)
                         eq_refl))).
Defined.

(** An image reference to a file that does not exist. *)
Lemma failed_asset_becomes_null_witness :
  let r := image sample_isRelativePath no_such_file None (JStr "./cover.png")
             cover_of_a (initial tt) in
  r.1 = Dirty JNull
  /\ issues r.2 =
       [mkIssue "custom" "ENOENT: no such file or directory, open './cover.png'"
          ["cover"]]
  /\ cache r.2 = ∅.
Proof.
  exact (failed_asset_becomes_null sample_isRelativePath no_such_file None
           "./cover.png" cover_of_a (initial tt) true
           "ENOENT: no such file or directory, open './cover.png'" tt
           eq_refl eq_refl).
Defined.

Lemma image_of_non_relative_path_witness :
  sample_isRelativePath "https://example.com/a.png" = false
  /\ image sample_isRelativePath no_such_file (Some true)
       (JStr "https://example.com/a.png") cover_of_a (initial tt)
     = (Valid (JImage (mkImage "https://example.com/a.png" 0 0 "" 0 0)), initial tt).
Proof.
  split; [reflexivity |].
  exact (image_of_non_relative_path sample_isRelativePath no_such_file
           "https://example.com/a.png" cover_of_a (initial tt) eq_refl).
Defined.

(** ** Excerpts *)

Module SliceFacts.
Import JsString.

Lemma substring_0_length (n : nat) (s : string) :
  String.length (String.substring 0 n s) = Nat.min n (String.length s).
Proof.
  revert s; induction n as [|n IH]; intros [|c s]; simpl; auto.
Qed.

Lemma substring_0_all (n : nat) (s : string) :
  (String.length s <= n)%nat -> String.substring 0 n s = s.
Proof.
  revert s; induction n as [|n IH]; intros [|c s]; simpl; intros H; auto.
  - lia.
  - f_equal. apply IH. lia.
Qed.

Lemma substring_0_prefix (n : nat) (s : string) :
  exists rest, s = String.substring 0 n s +:+ rest.
Proof.
  revert s; induction n as [|n IH]; intros [|c s]; simpl.
  - now exists "".
  - now exists (String c s).
  - now exists "".
  - destruct (IH s) as [rest E]. exists rest.
    rewrite RegexFacts.append_cons. now rewrite <- E.
Qed.

(** [s.slice(0, L)] for [L >= 0]: the first [min(L, s.length)] code units. *)
Lemma slice_0 (s : string) (L : Z) :
  (0 <= L)%Z ->
  slice s 0 L = String.substring 0 (Nat.min (Z.to_nat L) (String.length s)) s.
Proof.
  intros H. unfold slice, len.
  replace (0 <? 0)%Z with false by reflexivity.
  destruct (L <? 0)%Z eqn:E; [apply Z.ltb_lt in E; lia |].
  replace (Z.min 0 (Z.of_nat (String.length s))) with 0%Z by lia.
  f_equal. lia.
Qed.

Lemma slice_0_idempotent (s : string) (L : Z) :
  (0 <= L)%Z -> slice (slice s 0 L) 0 L = slice s 0 L.
Proof.
  intros H. rewrite (slice_0 s L H). rewrite slice_0 by assumption.
  rewrite substring_0_length.
  apply substring_0_all. rewrite substring_0_length. lia.
Qed.

End SliceFacts.

Section ExcerptClaims.
Context {World : Type}.
Implicit Types (st : St World) (ctx : Ctx) (value : JsValue).

Lemma excerpt_of_text length value ctx st T :
  excerpt_text value ctx = Some T ->
  excerpt length value ctx st = (Valid (JsString.slice T 0 (default 260%Z length)), st).
Proof.
  unfold excerpt_text, excerpt, z.transform, z.custom.
  destruct value as [| s | i]; [destruct (file_data_plain (ctx_file ctx)) |..];
    intros E; inversion E; subst; now rewrite reported_same.
Qed.

(** C7: for a length L >= 0 and the text T that is the declared value when
    there is one and the plain text of the file otherwise, the excerpt is
    the first min(L, len T) code units of T, whatever they are; without a
    length the schema is the one of length 260; "hello world" cut at 5 is
    "hello". *)
Theorem excerpt_is_prefix (L : Z) value ctx st (T : string) :
  (0 <= L)%Z ->
  excerpt_text value ctx = Some T ->
  let n := Nat.min (Z.to_nat L) (String.length T) in
  excerpt (Some L) value ctx st = (Valid (String.substring 0 n T), st)
  /\ String.length (String.substring 0 n T) = n
  /\ (exists rest, T = String.substring 0 n T +:+ rest)
  /\ excerpt (World := World) None = excerpt (Some 260%Z)
  /\ excerpt (Some 5%Z) (JStr "hello world") ctx st = (Valid "hello", st).
Proof.
  intros H E n. repeat split.
  - rewrite (excerpt_of_text _ _ _ _ _ E). cbn [default].
    now rewrite SliceFacts.slice_0.
  - rewrite SliceFacts.substring_0_length. subst n. lia.
  - apply SliceFacts.substring_0_prefix.
  - now rewrite (excerpt_of_text _ _ _ _ "hello world").
Qed.

(** C8, where it holds: with a declared string, or a plain text to fall
    back on, the schema returns a string and the state, issues included,
    is as it was, for every length. Without either, the callback throws. *)
Theorem excerpt_throws_without_text length ctx st :
  (forall value T, excerpt_text value ctx = Some T ->
     exists s, excerpt length value ctx st = (Valid s, st))
  /\ (file_data_plain (ctx_file ctx) = None ->
      excerpt length JNull ctx st =
        (Thrown (TypeError "Cannot read properties of null (reading 'slice')"), st))
  /\ excerpt length JNull post_b st =
       (Thrown (TypeError "Cannot read properties of null (reading 'slice')"), st).
Proof.
  split; [| split].
  - intros value T E. eexists. eapply excerpt_of_text. exact E.
  - intros E. unfold excerpt, z.transform, z.custom. rewrite E. reflexivity.
  - reflexivity.
Qed.

End ExcerptClaims.

Lemma excerpt_is_prefix_witness :
  excerpt_text (JStr "hello world") post_a = Some "hello world"
  /\ excerpt (Some 5%Z) (JStr "hello world") post_a (initial tt)
     = (Valid "hello", initial tt).
Proof.
  split; [reflexivity |].
  exact (proj1 (excerpt_is_prefix (World := unit) 5 (JStr "hello world") post_a
                  (initial tt) "hello world" (Pos2Z.is_nonneg 5) eq_refl)).
Defined.

(** ** Dates: [Date.parse] reads what [toISOString] writes *)

Module DateFacts.
Import JsDate.
Local Open Scope Z_scope.

Lemma digit_cases (d : Z) (P : Z -> Prop) :
  0 <= d <= 9 ->
  P 0 -> P 1 -> P 2 -> P 3 -> P 4 -> P 5 -> P 6 -> P 7 -> P 8 -> P 9 -> P d.
Proof.
  intros H. 
  assert (E : d = 0 \/ d = 1 \/ d = 2 \/ d = 3 \/ d = 4 \/ d = 5 \/ d = 6
              \/ d = 7 \/ d = 8 \/ d = 9) by lia.
  intuition (subst; assumption).
Qed.

Lemma digit_val_digit d : 0 <= d <= 9 -> digit_val (digit d) = Some d.
Proof. intros H. pattern d. apply (digit_cases d); auto. Qed.

Lemma digit_not_plus d : 0 <= d <= 9 -> Ascii.eqb (digit d) "+" = false.
Proof. intros H. pattern d. apply (digit_cases d); auto. Qed.

Lemma digit_not_minus d : 0 <= d <= 9 -> Ascii.eqb (digit d) "-" = false.
Proof. intros H. pattern d. apply (digit_cases d); auto. Qed.

Lemma pow10_succ (w : nat) : 10 ^ Z.of_nat (S w) = 10 * 10 ^ Z.of_nat w.
Proof. rewrite Nat2Z.inj_succ. apply Z.pow_succ_r. lia. Qed.

Lemma pow10_pos (w : nat) : 0 < 10 ^ Z.of_nat w.
Proof. apply Z.pow_pos_nonneg; lia. Qed.

Lemma read_digits_pad (w : nat) : forall n acc rest,
  0 <= n < 10 ^ Z.of_nat w ->
  read_digits w acc (pad w n +:+ rest) = Some (acc * 10 ^ Z.of_nat w + n, rest).
Proof.
  induction w as [|w IH]; intros n acc rest H.
  - cbn in *. do 2 f_equal. lia.
  - cbn [pad read_digits]. rewrite RegexFacts.append_cons.
    pose proof (pow10_pos w) as P. rewrite pow10_succ in H.
    assert (Q : 0 <= n / 10 ^ Z.of_nat w <= 9).
    { split; [apply Z.div_pos; lia |].
      assert (n / 10 ^ Z.of_nat w < 10); [| lia].
      apply Z.div_lt_upper_bound; lia. }
    rewrite digit_val_digit by assumption.
    rewrite IH by (apply Z.mod_pos_bound; lia).
    do 2 f_equal. rewrite pow10_succ.
    pose proof (Z.div_mod n (10 ^ Z.of_nat w) ltac:(lia)). nia.
Qed.

Lemma time_within_day t : 0 <= TimeWithinDay t < msPerDay.
Proof. unfold TimeWithinDay, msPerDay. apply Z.mod_pos_bound. lia. Qed.

Lemma time_fields t :
  0 <= HourFromTime t <= 23 /\ 0 <= MinFromTime t <= 59
  /\ 0 <= SecFromTime t <= 59 /\ 0 <= msFromTime t <= 999
  /\ MakeTime (HourFromTime t) (MinFromTime t) (SecFromTime t) (msFromTime t)
     = TimeWithinDay t.
Proof.
  pose proof (time_within_day t) as H.
  unfold HourFromTime, MinFromTime, SecFromTime, msFromTime, MakeTime.
  unfold msPerDay in H. generalize dependent (TimeWithinDay t). intros w H.
  Z.div_mod_to_equations. lia.
Qed.


Lemma read_digits_pad0 (w : nat) n rest :
  0 <= n < 10 ^ Z.of_nat w ->
  read_digits w 0 (pad w n +:+ rest) = Some (n, rest).
Proof. intros H. rewrite read_digits_pad by assumption. do 2 f_equal. Qed.

Lemma all_from_spec (n : nat) : forall z f,
  all_from n z f = true -> forall x, z <= x < z + Z.of_nat n -> f x = true.
Proof.
  induction n as [|n IH]; intros z f H x Hx.
  - lia.
  - cbn [all_from] in H. destruct (f z) eqn:E; [| discriminate].
    destruct (Z.eq_dec x z) as [-> | Ne]; [assumption |].
    apply (IH (z + 1) f H). lia.
Qed.

Lemma cycle_checked : all_from (Z.to_nat 146097) 0 cycle_ok = true.
Proof. vm_cast_no_check (@eq_refl bool true). Qed.

Lemma cycle_ok_all doe : 0 <= doe < 146097 -> cycle_ok doe = true.
Proof.
  intros H. apply (all_from_spec _ _ _ cycle_checked). 
  rewrite Z2Nat.id; lia.
Qed.

Lemma InLeapYear_shift y k : InLeapYear (y + 400 * k) = InLeapYear y.
Proof.
  unfold InLeapYear.
  replace ((y + 400 * k) mod 4) with (y mod 4)
    by (Z.div_mod_to_equations; lia).
  replace ((y + 400 * k) mod 100) with (y mod 100)
    by (Z.div_mod_to_equations; lia).
  replace ((y + 400 * k) mod 400) with (y mod 400)
    by (Z.div_mod_to_equations; lia).
  reflexivity.
Qed.

Lemma DaysInMonth_shift y k m : DaysInMonth (y + 400 * k) m = DaysInMonth y m.
Proof. unfold DaysInMonth. now rewrite InLeapYear_shift. Qed.

Lemma MakeDay_shift y k m d : MakeDay (y + 400 * k) m d = MakeDay y m d + 146097 * k.
Proof.
  unfold MakeDay.
  set (y0 := if m <=? 2 then y - 1 else y).
  replace (if m <=? 2 then y + 400 * k - 1 else y + 400 * k) with (y0 + k * 400)
    by (subst y0; destruct (m <=? 2); lia).
  rewrite Z.div_add, Z_mod_plus_full by lia. cbv zeta. lia.
Qed.

(** The calendar fields of a day number are a date of the calendar, and
    [MakeDay] gives the day number back. *)
Lemma civil_valid day :
  let '(y, m, d) := civil day in
  1 <= m <= 12 /\ 1 <= d <= DaysInMonth y m /\ MakeDay y m d = day
  /\ 400 * ((day + 719468) / 146097) <= y <= 400 * ((day + 719468) / 146097) + 400.
Proof.
  unfold civil. cbv zeta.
  pose proof (cycle_ok_all ((day + 719468) mod 146097)
                ltac:(apply Z.mod_pos_bound; lia)) as C.
  unfold cycle_ok in C.
  destruct (cycle_date ((day + 719468) mod 146097)) as [[y m] d].
  rewrite !andb_true_iff in C.
  destruct C as [[[[[[C1 C2] C3] C4] C5] C6] C7].
  rewrite DaysInMonth_shift, MakeDay_shift.
  pose proof (Z.div_mod (day + 719468) 146097 ltac:(lia)).
  lia.
Qed.

Lemma read_year_year_string y rest :
  -999999 <= y <= 999999 ->
  read_year (year_string y +:+ rest) = Some (y, rest).
Proof.
  intros H. unfold year_string.
  destruct ((0 <=? y) && (y <=? 9999)) eqn:E.
  - apply andb_true_iff in E as [E1 E2]. apply Z.leb_le in E1, E2.
    pose proof (read_digits_pad0 4 y rest ltac:(change (10 ^ Z.of_nat 4) with 10000; lia)) as R.
    change (pad 4 y) with (String (digit (y / 10 ^ Z.of_nat 3)) (pad 3 (y mod 10 ^ Z.of_nat 3))) in *.
    rewrite RegexFacts.append_cons in *.
    unfold read_year.
    assert (Q : 0 <= y / 10 ^ Z.of_nat 3 <= 9).
    { change (10 ^ Z.of_nat 3) with 1000. Z.div_mod_to_equations. lia. }
    rewrite digit_not_plus, digit_not_minus by assumption. exact R.
  - destruct (y <? 0) eqn:N.
    + apply Z.ltb_lt in N. rewrite RegexFacts.append_cons. unfold read_year.
      replace (Ascii.eqb "-" "+") with false by reflexivity.
      replace (Ascii.eqb "-" "-") with true by reflexivity.
      rewrite read_digits_pad0 by (change (10 ^ Z.of_nat 6) with 1000000; lia).
      cbn. destruct (- y =? 0) eqn:Z0; [apply Z.eqb_eq in Z0; lia |].
      do 2 f_equal. lia.
    + rewrite RegexFacts.append_cons. unfold read_year.
      replace (Ascii.eqb "+" "+") with true by reflexivity.
      apply Z.ltb_ge in N.
      apply read_digits_pad0. change (10 ^ Z.of_nat 6) with 1000000; lia.
Qed.

Lemma day_time t : MakeDate (Day t) (TimeWithinDay t) = t.
Proof.
  unfold MakeDate, Day, TimeWithinDay, msPerDay.
  pose proof (Z.div_mod t 86400000 ltac:(lia)). lia.
Qed.

Lemma year_in_range t :
  Z.abs t <= maxTime -> -999999 <= YearFromTime t <= 999999.
Proof.
  intros H. unfold YearFromTime.
  pose proof (civil_valid (Day t)) as V.
  destruct (civil (Day t)) as [[y m] d]. cbn.
  destruct V as (_ & _ & _ & Y).
  unfold Day, msPerDay, maxTime in *.
  assert (-100000000 <= t / 86400000 <= 100000000).
  { Z.div_mod_to_equations. lia. }
  assert (-1000 <= (t / 86400000 + 719468) / 146097 <= 1000).
  { Z.div_mod_to_equations. lia. }
  lia.
Qed.

Lemma expect_same c s : expect c (String c s) = Some s.
Proof. unfold expect. now rewrite Ascii.eqb_refl. Qed.

Lemma read2 n rest : 0 <= n <= 99 -> read_digits 2 0 (pad 2 n +:+ rest) = Some (n, rest).
Proof. intros H. apply read_digits_pad0. change (10 ^ Z.of_nat 2) with 100. lia. Qed.

Lemma read3 n rest : 0 <= n <= 999 -> read_digits 3 0 (pad 3 n +:+ rest) = Some (n, rest).
Proof. intros H. apply read_digits_pad0. change (10 ^ Z.of_nat 3) with 1000. lia. Qed.

(** [Date.parse] reads what [toISOString] writes. *)
Lemma parse_utc_format t : Z.abs t <= maxTime -> parse_utc (format t) = Some t.
Proof.
  intros H.
  pose proof (year_in_range t H) as HY.
  pose proof (civil_valid (Day t)) as V.
  pose proof (time_fields t) as (Hh & Hmi & Hs & Hms & HT).
  unfold format, YearFromTime, MonthFromTime, DateFromTime in *.
  destruct (civil (Day t)) as [[y m] d]. cbn [fst snd] in *.
  destruct V as (Hm & Hd & HD & _).
  assert (Hd31 : d <= 31).
  { unfold DaysInMonth in Hd.
    repeat match type of Hd with context [if ?b then _ else _] => destruct b end; lia. }
  unfold parse_utc.
  rewrite read_year_year_string by assumption. cbn [mbind option_bind].
  repeat (first [rewrite expect_same | rewrite read2 by lia | rewrite read3 by lia];
          cbn [mbind option_bind]).
  rewrite !(proj2 (Z.leb_le _ _)) by lia.
  cbn [String.eqb andb orb].
  f_equal. rewrite HD, HT. apply day_time.
Qed.

Lemma parse_toISOString host t :
  Z.abs t <= maxTime -> parse host (format t) = Some t.
Proof.
  intros H. unfold parse. rewrite parse_utc_format by assumption.
  unfold TimeClip. now rewrite (proj2 (Z.leb_le _ _)) by assumption.
Qed.

Lemma parse_in_range host s t : parse host s = Some t -> Z.abs t <= maxTime.
Proof.
  unfold parse. 
  assert (C : forall u, TimeClip u = Some t -> Z.abs t <= maxTime).
  { intros u. unfold TimeClip. destruct (Z.abs u <=? maxTime) eqn:E; [| discriminate].
    intros [= ->]. now apply Z.leb_le. }
  destruct (parse_utc s) as [u|]; [apply C |].
  destruct (host s) as [u|]; cbn; [apply C | discriminate].
Qed.

End DateFacts.

(** ** Running a schema again on its own output *)

Section RerunClaims.
Context {World : Type}.
Variable host_parse : string -> option Z.
Implicit Types (st : St World) (ctx : Ctx) (value : JsValue).

Lemma isodate_run (s : string) ctx st :
  isodate host_parse (JStr s) ctx st =
    match JsDate.parse host_parse s with
    | Some t => (Valid (JsDate.format t), st)
    | None => (Aborted, addIssue "custom" "Invalid date string" ctx st)
    end.
Proof.
  unfold isodate, z.transform, z.refine, z.superRefine, z.string.
  destruct (JsDate.parse host_parse s) as [t|] eqn:E; cbn [JsDate.isNaN negb].
  - rewrite reported_same, E. cbn [JsDate.toISOString]. reflexivity.
  - now rewrite reported_addIssue.
Qed.

Lemma isodate_valid_inv value ctx st out st' :
  isodate host_parse value ctx st = (Valid out, st') ->
  exists s t, value = JStr s /\ JsDate.parse host_parse s = Some t
              /\ out = JsDate.format t /\ st' = st.
Proof.
  destruct value as [| s | i]; try discriminate.
  rewrite isodate_run. destruct (JsDate.parse host_parse s) as [t|] eqn:E;
    intros [= <- <-]. now exists s, t.
Qed.

Lemma excerpt_valid_inv length value ctx st out st' :
  excerpt length value ctx st = (Valid out, st') ->
  exists T, excerpt_text value ctx = Some T
            /\ out = JsString.slice T 0 (default 260%Z length) /\ st' = st.
Proof.
  destruct (excerpt_text value ctx) as [T|] eqn:E.
  - rewrite (excerpt_of_text _ _ _ _ _ E). intros [= <- <-]. now exists T.
  - unfold excerpt_text in E. unfold excerpt, z.transform, z.custom.
    destruct value as [| s | i]; try discriminate; rewrite ?E; discriminate.
Qed.

Lemma slug_valid_inv by_ reserved value ctx st out st' :
  slug by_ reserved value ctx st = (Valid out, st') ->
  value = JStr out
  /\ slug_constraints (default [] reserved) out
  /\ cache st !! slug_key (default "global" by_) out = None
  /\ st' = cache_set (slug_key (default "global" by_) out)
             (file_path (ctx_file ctx)) st.
Proof.
  destruct value as [| s | i]; try discriminate.
  destruct (syntax_ok (default [] reserved) s) eqn:S.
  - rewrite slug_reaches_reserve by assumption.
    unfold reserve.
    destruct (cache_has _ st) eqn:C; intros [= <- <-].
    apply syntax_ok_constraints in S. apply cache_has_false in C. auto.
  - destruct (slug_stops_before_reserve by_ reserved s ctx st S)
      as (more & _ & _ & E).
    rewrite E. discriminate.
Qed.

(** C3, as the code has it. The excerpt schema with a length L >= 0 and the
    isodate schema, run again on their output in the state they left,
    return the same value and report nothing: a normalized timestamp
    normalizes to itself. The slug schema run again on its output in the
    same build returns the same value with a duplicate-slug issue, since
    its first run took the key; in a state whose cache does not hold the
    key it is valid again. *)
Theorem rerun_on_output ctx st :
  (forall (L : Z) value out st',
     (0 <= L)%Z ->
     excerpt (Some L) value ctx st = (Valid out, st') ->
     excerpt (Some L) (JStr out) ctx st' = (Valid out, st'))
  /\ (forall value out st',
        isodate host_parse value ctx st = (Valid out, st') ->
        isodate host_parse (JStr out) ctx st' = (Valid out, st'))
  /\ (forall by_ reserved value out st',
        slug by_ reserved value ctx st = (Valid out, st') ->
        slug by_ reserved (JStr out) ctx st' =
          (Dirty out, addIssue "custom" (duplicate_message out ctx) ctx st')
        /\ (forall st0 : St World,
              cache st0 !! slug_key (default "global" by_) out = None ->
              (slug by_ reserved (JStr out) ctx st0).1 = Valid out
              /\ issues (slug by_ reserved (JStr out) ctx st0).2 = issues st0)).
Proof.
  split; [| split].
  - intros L value out st' HL HE.
    apply excerpt_valid_inv in HE as (T & _ & -> & ->). cbn [default].
    rewrite (excerpt_of_text _ _ _ _ (JsString.slice T 0 L)) by reflexivity.
    cbn [default]. now rewrite SliceFacts.slice_0_idempotent.
  - intros value out st' HD.
    apply isodate_valid_inv in HD as (s & t & _ & P & -> & ->).
    rewrite isodate_run.
    rewrite DateFacts.parse_toISOString; [reflexivity |].
    eapply DateFacts.parse_in_range; eassumption.
  - intros by_ reserved value out st' HS.
    apply slug_valid_inv in HS as (_ & C & _ & ->). split.
    + eapply later_reservation; [exact C |]. cbn. apply lookup_insert_eq.
    + intros st0 F. rewrite (first_reservation _ _ _ _ _ C F). auto.
Qed.

End RerunClaims.

(** C3, as stated, fails for slugs: "my-post" is valid in a fresh build, and
    the same schema run on that output in the state it left reports a
    duplicate. *)
Lemma slug_rerun_reports_duplicate :
  let r1 := slug None None (JStr "my-post") post_a (initial tt) in
  let r2 := slug None None (JStr "my-post") post_a r1.2 in
  r1 = (Valid "my-post", cache_set "schemas:slug:global:my-post" "posts/a.md" (initial tt))
  /\ r2.1 = Dirty "my-post"
  /\ issues r2.2 =
       [mkIssue "custom" "duplicate slug 'my-post' in 'posts/a.md:slug'" ["slug"]].
Proof. vm_compute. repeat split; reflexivity. Qed.

Lemma rerun_on_output_witness :
  let st := initial tt in
  let st' := cache_set "schemas:slug:global:my-post" "posts/a.md" st in
  excerpt (Some 5%Z) (JStr "hello world") post_a st = (Valid "hello", st)
  /\ excerpt (Some 5%Z) (JStr "hello") post_a st = (Valid "hello", st)
  /\ isodate no_host_format (JStr "+002024-02-29T24:00:00.000Z") post_a st
     = (Valid "2024-03-01T00:00:00.000Z", st)
  /\ isodate no_host_format (JStr "2024-03-01T00:00:00.000Z") post_a st
     = (Valid "2024-03-01T00:00:00.000Z", st)
  /\ slug None None (JStr "my-post") post_a st = (Valid "my-post", st')
  /\ (slug None None (JStr "my-post") post_a st').1 = Dirty "my-post".
Proof.
  intros st st'.
  assert (HE : excerpt (Some 5%Z) (JStr "hello world") post_a st = (Valid "hello", st))
    by reflexivity.
  assert (HD : isodate no_host_format (JStr "+002024-02-29T24:00:00.000Z") post_a st
               = (Valid "2024-03-01T00:00:00.000Z", st)) by (vm_compute; reflexivity).
  assert (HS : slug None None (JStr "my-post") post_a st = (Valid "my-post", st'))
    by (vm_compute; reflexivity).
  destruct (rerun_on_output no_host_format post_a st) as (RE & RD & RS).
  split; [exact HE |].
  split; [exact (RE 5%Z _ _ _ (Pos2Z.is_nonneg 5) HE) |].
  split; [exact HD |].
  split; [exact (RD _ _ _ HD) |].
  split; [exact HS |].
  rewrite (proj1 (RS None None _ _ _ HS)). reflexivity.
Defined.

(** * More of the code *)

(** ** The slug pattern *)

Module ShapeFacts.
Import JsString Regex RegexFacts.

Lemma alnum_class c : class_matches true [("a", "z"); ("0", "9")]%char c = is_alnum c.
Proof. destruct c as [[] [] [] [] [] [] [] []]; reflexivity. Qed.

Lemma hyphen_lit c : lit_matches true "-" c = is_hyphen c.
Proof. destruct c as [[] [] [] [] [] [] [] []]; reflexivity. Qed.

Lemma alnum_not_hyphen c : is_alnum c = true -> is_hyphen c = false.
Proof. destruct c as [[] [] [] [] [] [] [] []]; vm_compute; intros; congruence. Qed.

Lemma is_hyphen_eq c : is_hyphen c = true <-> c = "-"%char.
Proof. unfold is_hyphen. apply Ascii.eqb_eq. Qed.

(** The two states of the scan as patterns. *)
Definition tail_re : re := Star (Seq (Lit "-") (Plus alnum)).
Definition after_re : re := Seq (Star alnum) tail_re.

Lemma seq_inv i r1 r2 s :
  matches i (Seq r1 r2) s ->
  exists s1 s2, s = s1 +:+ s2 /\ matches i r1 s1 /\ matches i r2 s2.
Proof. inversion 1; subst; eauto. Qed.

Lemma plus_inv i r s :
  matches i (Plus r) s ->
  exists s1 s2, s = s1 +:+ s2 /\ matches i r s1 /\ matches i (Star r) s2.
Proof. inversion 1; subst; eauto. Qed.

Lemma class_inv i rs s :
  matches i (Class rs) s -> exists d, s = String d "" /\ class_matches i rs d = true.
Proof. inversion 1; subst; eauto. Qed.

Lemma lit_inv i c s :
  matches i (Lit c) s -> exists d, s = String d "" /\ lit_matches i c d = true.
Proof. inversion 1; subst; eauto. Qed.

Lemma star_cons i r c s :
  matches i (Star r) (String c s) ->
  exists s1 s2, s = s1 +:+ s2 /\ matches i r (String c s1) /\ matches i (Star r) s2.
Proof.
  intros M. apply (deriv_complete i c) with (s := s) in M; [| reflexivity].
  cbn [deriv] in M. apply seq_inv in M as (s1 & s2 & -> & M1 & M2).
  exists s1, s2. repeat split; auto. now apply deriv_sound.
Qed.

Lemma slug_nil : ~ matches true slug_re "".
Proof.
  intros M. apply matches_nil_nullable in M; [| reflexivity]. discriminate.
Qed.

Lemma after_nil : matches true after_re "".
Proof. apply nullable_matches. reflexivity. Qed.

Lemma slug_cons c s :
  matches true slug_re (String c s) <-> is_alnum c = true /\ matches true after_re s.
Proof.
  split.
  - intros M. apply seq_inv in M as (s1 & s2 & E & M1 & M2).
    apply plus_inv in M1 as (u1 & u2 & -> & A & S).
    apply class_inv in A as (d & -> & A). rewrite alnum_class in A.
    rewrite !append_cons, append_nil_l in E. injection E as -> ->.
    split; [assumption |]. now constructor.
  - intros [A M]. apply seq_inv in M as (s1 & s2 & -> & M1 & M2).
    change (String c (s1 +:+ s2)) with ((String c "" +:+ s1) +:+ s2).
    constructor; [| assumption]. constructor; [| assumption].
    constructor. now rewrite alnum_class.
Qed.

Lemma after_cons c s :
  matches true after_re (String c s) <->
  (is_alnum c = true /\ matches true after_re s)
  \/ (is_hyphen c = true /\ matches true slug_re s).
Proof.
  split.
  - intros M. apply seq_inv in M as (s1 & s2 & E & M1 & M2).
    destruct s1 as [|d s1]; rewrite ?append_nil_l, ?append_cons in E.
    + subst s2. right. apply star_cons in M2 as (u1 & u2 & -> & H & T).
      apply seq_inv in H as (h & p & E & H & P).
      apply lit_inv in H as (d' & -> & H). rewrite hyphen_lit in H.
      rewrite append_cons, append_nil_l in E. injection E as -> ->.
      split; [assumption |]. now constructor.
    + injection E as -> ->. left.
      apply star_cons in M1 as (u1 & u2 & -> & A & S).
      apply class_inv in A as (d' & E & A). injection E as -> ->.
      rewrite alnum_class in A. split; [assumption |].
      rewrite append_nil_l. now constructor.
  - intros [[A M] | [H M]].
    + apply seq_inv in M as (s1 & s2 & -> & M1 & M2).
      change (String c (s1 +:+ s2)) with (String c s1 +:+ s2).
      constructor; [| assumption].
      change (String c s1) with (String c "" +:+ s1).
      constructor; [| assumption]. constructor. now rewrite alnum_class.
    + apply seq_inv in M as (s1 & s2 & -> & M1 & M2).
      change (String c (s1 +:+ s2)) with ("" +:+ (String c s1 +:+ s2)).
      constructor; [constructor |].
      constructor; [| assumption].
      change (String c s1) with (String c "" +:+ s1).
      constructor; [| assumption]. constructor. now rewrite hyphen_lit.
Qed.

Lemma scan_matches s :
  (slug_scan false s = true <-> matches true slug_re s)
  /\ (slug_scan true s = true <-> matches true after_re s).
Proof.
  induction s as [|c s [IHA IHB]]; cbn [slug_scan].
  - split; split; try discriminate; auto using after_nil.
    intros M. now apply slug_nil in M.
  - rewrite slug_cons, after_cons.
    destruct (is_alnum c) eqn:A.
    + rewrite (alnum_not_hyphen c A). rewrite IHB. intuition congruence.
    + destruct (is_hyphen c) eqn:H; cbn [andb]; rewrite ?IHA; intuition congruence.
Qed.

Lemma test_slug_scan s : test true slug_re s = slug_scan false s.
Proof.
  apply eq_true_iff_eq. rewrite test_matches. symmetry. apply scan_matches.
Qed.


Lemma prefix_hyphen s :
  String.prefix "-" s = match s with String c _ => is_hyphen c | EmptyString => false end.
Proof.
  destruct s as [|c s]; [reflexivity |]. cbn [String.prefix]. unfold is_hyphen.
  destruct (ascii_dec "-" c) as [<- | Ne]; [destruct s; reflexivity |].
  symmetry. apply Ascii.eqb_neq. congruence.
Qed.

Lemma prefix_hyphen2 c s :
  String.prefix "--" (String c s) = is_hyphen c && String.prefix "-" s.
Proof.
  cbn [String.prefix]. unfold is_hyphen.
  destruct (ascii_dec "-" c) as [<- | Ne]; [reflexivity |].
  replace (Ascii.eqb c "-") with false; [reflexivity |].
  symmetry. apply Ascii.eqb_neq. congruence.
Qed.

Lemma prefix_hyphen_cons c s : String.prefix "-" (String c s) = is_hyphen c.
Proof. apply (prefix_hyphen (String c s)). Qed.

Lemma contains_cons c s :
  contains "--" (String c s) = is_hyphen c && String.prefix "-" s || contains "--" s.
Proof. cbn [contains]. now rewrite prefix_hyphen2. Qed.

Lemma ends_with_hyphen_cons c s :
  ends_with_hyphen (String c s) =
  match s with EmptyString => is_hyphen c | _ => ends_with_hyphen s end.
Proof. destruct s; reflexivity. Qed.

Lemma scan_shape s :
  slug_scan false s = slug_shape s
  /\ slug_scan true s =
       all_chars (fun c => is_alnum c || is_hyphen c) s
       && negb (ends_with_hyphen s) && negb (contains "--" s).
Proof.
  unfold slug_shape.
  induction s as [|c s [IHA IHB]]; [split; reflexivity |].
  cbn [slug_scan all_chars String.eqb].
  rewrite contains_cons, prefix_hyphen_cons, ends_with_hyphen_cons, IHA, IHB.
  destruct s as [|d s].
  - destruct (is_alnum c) eqn:A;
      [rewrite (alnum_not_hyphen c A) | destruct (is_hyphen c)]; split; reflexivity.
  - rewrite prefix_hyphen_cons. cbn [String.eqb].
    generalize (all_chars (fun c => is_alnum c || is_hyphen c) (String d s)).
    generalize (ends_with_hyphen (String d s)).
    generalize (contains "--" (String d s)).
    intros b1 b2 b3.
    destruct (is_alnum c) eqn:A.
    + rewrite (alnum_not_hyphen c A).
      destruct b1, b2, b3, (is_hyphen d); split; reflexivity.
    + destruct (is_hyphen c), b1, b2, b3, (is_hyphen d); split; reflexivity.
Qed.

Lemma matches_shape s : matches true slug_re s <-> slug_shape s = true.
Proof.
  rewrite <- test_matches, test_slug_scan. now rewrite (proj1 (scan_shape s)).
Qed.

End ShapeFacts.


(** X1: a string matches the slug pattern exactly when it is not empty,
    is made of ASCII letters, digits and hyphens only, and has no hyphen
    first, last or next to another hyphen. *)
Theorem slug_pattern_shape (s : string) :
  Regex.test true slug_re s = slug_shape s
  /\ (Regex.matches true slug_re s <-> slug_shape s = true).
Proof.
  split; [| apply ShapeFacts.matches_shape].
  rewrite ShapeFacts.test_slug_scan. apply ShapeFacts.scan_shape.
Qed.

(** ** Cache keys *)

Module KeyFacts.
Import ShapeFacts.

Lemma all_chars_app p a b : all_chars p (a +:+ b) = all_chars p a && all_chars p b.
Proof.
  induction a as [|c a IH]; [reflexivity |].
  rewrite RegexFacts.append_cons. cbn [all_chars]. rewrite IH. apply andb_assoc.
Qed.

Lemma shape_no_colon s : slug_shape s = true -> no_colon s = true.
Proof.
  unfold slug_shape, no_colon. rewrite !andb_true_iff. intros [[[[_ H] _] _] _].
  induction s as [|c s IH]; [reflexivity |].
  cbn [all_chars] in *. apply andb_true_iff in H as [Hc Hs].
  rewrite IH by assumption. rewrite andb_true_r.
  destruct (Ascii.eqb c ":") eqn:E; [| reflexivity].
  apply Ascii.eqb_eq in E. subst c. discriminate Hc.
Qed.

Lemma colon_in_middle a b : no_colon (a +:+ String ":" b) = false.
Proof.
  unfold no_colon. rewrite all_chars_app. cbn [all_chars].
  replace (Ascii.eqb ":" ":") with true by reflexivity. cbn [negb andb].
  apply andb_false_r.
Qed.

Lemma split_at_colon a : forall b v w,
  no_colon v = true -> no_colon w = true ->
  a +:+ String ":" v = b +:+ String ":" w -> a = b /\ v = w.
Proof.
  induction a as [|c a IH]; intros [|d b] v w Hv Hw E;
    rewrite ?RegexFacts.append_nil_l, ?RegexFacts.append_cons in E.
  - injection E as ->. auto.
  - injection E as <- ->. rewrite colon_in_middle in Hv. discriminate.
  - injection E as -> <-. rewrite colon_in_middle in Hw. discriminate.
  - injection E as -> E. destruct (IH b v w Hv Hw E) as [-> ->]. auto.
Qed.

Lemma slug_key_pair_inj b1 v1 b2 v2 :
  Regex.matches true slug_re v1 -> Regex.matches true slug_re v2 ->
  slug_key b1 v1 = slug_key b2 v2 -> b1 = b2 /\ v1 = v2.
Proof.
  intros M1 M2 E. unfold slug_key in E.
  apply (inj (String.app _)) in E.
  change (":" +:+ v1) with (String ":" v1) in E.
  change (":" +:+ v2) with (String ":" v2) in E.
  apply split_at_colon; [| | exact E]; apply shape_no_colon;
    now apply matches_shape.
Qed.

End KeyFacts.


Section MoreSlug.
Context {World : Type}.
Implicit Types (st : St World) (ctx : Ctx).

(** X3: two different (namespace, value) pairs never share a cache key when
    the values match the slug pattern, so reserving one never blocks the
    other: reserved one after the other with both keys free, both are
    valid without an issue and the cache holds both, each with its own
    file's path. The same value in two namespaces is one such case. *)
Theorem distinct_pairs_never_collide by1 by2 reserved v1 v2 ctx1 ctx2 st :
  slug_constraints (default [] reserved) v1 ->
  slug_constraints (default [] reserved) v2 ->
  (default "global" by1, v1) <> (default "global" by2, v2) ->
  cache st !! slug_key (default "global" by1) v1 = None ->
  cache st !! slug_key (default "global" by2) v2 = None ->
  let k1 := slug_key (default "global" by1) v1 in
  let k2 := slug_key (default "global" by2) v2 in
  let r1 := slug by1 reserved (JStr v1) ctx1 st in
  let r2 := slug by2 reserved (JStr v2) ctx2 (next_file r1.2) in
  k1 <> k2
  /\ r1.1 = Valid v1 /\ issues r1.2 = issues st
  /\ r2.1 = Valid v2 /\ issues r2.2 = []
  /\ cache r2.2 !! k1 = Some (file_path (ctx_file ctx1))
  /\ cache r2.2 !! k2 = Some (file_path (ctx_file ctx2)).
Proof.
  intros C1 C2 Ne F1 F2 k1 k2 r1 r2.
  assert (K : k1 <> k2).
  { intros E. apply Ne.
    destruct (KeyFacts.slug_key_pair_inj _ _ _ _ (proj1 (proj2 C1))
                (proj1 (proj2 C2)) E) as [-> ->]. reflexivity. }
  assert (E1 : r1 = (Valid v1, cache_set k1 (file_path (ctx_file ctx1)) st))
    by (apply first_reservation; assumption).
  assert (F2' : cache (next_file r1.2) !! k2 = None).
  { rewrite E1. cbn. rewrite lookup_insert_ne; assumption. }
  assert (E2 : r2 = (Valid v2, cache_set k2 (file_path (ctx_file ctx2))
                                  (next_file r1.2)))
    by (apply first_reservation; assumption).
  rewrite E2. rewrite E1 in *. cbn.
  repeat split; auto.
  - rewrite lookup_insert_ne by congruence. apply lookup_insert_eq.
  - apply lookup_insert_eq.
Qed.



Lemma slug_reserved_run by_ reserved value ctx st :
  (3 <= JsString.len value <= 200)%nat ->
  Regex.test true slug_re value = true ->
  JsString.includes (default [] reserved) value = true ->
  slug by_ reserved (JStr value) ctx st =
    (Dirty value, addIssue "custom" "Reserved slug" ctx st).
Proof.
  intros [L1 L2] T I. apply Nat.leb_le in L1, L2.
  unfold slug, z.superRefine, z.refine, z.superRefine, z.regex, z.max, z.min,
    z.check, z.string.
  rewrite L1, L2, T, I. cbn [negb]. now rewrite reported_addIssue.
Qed.

(** X4: the reserved words are compared with the value as written. For a
    value of the right length that matches the pattern, the issue
    'Reserved slug' is among the issues the schema adds exactly when the
    value is one of the reserved strings, and then the result is not
    valid. *)
Theorem reserved_words_match_exactly by_ reserved value ctx st :
  (3 <= JsString.len value <= 200)%nat ->
  Regex.matches true slug_re value ->
  let r := slug by_ reserved (JStr value) ctx st in
  exists more,
    issues r.2 = issues st ++ more
    /\ (In (mkIssue "custom" "Reserved slug" (ctx_path ctx)) more
        <-> In value (default [] reserved))
    /\ (In value (default [] reserved) -> r.1 = Dirty value).
Proof.
  intros L M r. subst r. apply RegexFacts.test_matches in M.
  destruct (JsString.includes (default [] reserved) value) eqn:I.
  - rewrite slug_reserved_run by assumption. apply includes_In in I.
    eexists. split; [reflexivity |]. split; [| auto].
    split; [auto | intros _; now left].
  - assert (N : ~ In value (default [] reserved)).
    { rewrite <- includes_In. congruence. }
    assert (S : syntax_ok (default [] reserved) value = true).
    { unfold syntax_ok. rewrite M, I.
      destruct L as [L1 L2]. apply Nat.leb_le in L1, L2. now rewrite L1, L2. }
    rewrite slug_reaches_reserve by assumption. unfold reserve.
    destruct (cache_has _ st); cbn [snd fst].
    + eexists. split; [reflexivity |]. split; [| tauto].
      split; [| tauto]. intros [E | []].
      destruct (duplicate_message_head value ctx) as [t Ht].
      rewrite Ht in E. discriminate E.
    + exists []. split; [cbn; now rewrite app_nil_r |]. split; [| tauto].
      split; [intros [] | tauto].
Qed.

End MoreSlug.

(** ** The asset schemas, whatever the resolver does *)

Section MoreAssets.
Context {World : Type}.
Variable isRelativePath : string -> bool.
Variable processAsset :
  string -> string -> string -> string -> bool -> World ->
  (string + JsValue) * World.
Implicit Types (st : St World) (ctx : Ctx).

Lemma asset_run (isImage : bool) allow (value : string) ctx st :
  asset_schema isRelativePath processAsset isImage allow (JStr value) ctx st =
    if kept_as_is isRelativePath isImage allow value
    then (Valid (if isImage then JImage (mkImage value 0 0 "" 0 0) else JStr value), st)
    else
      let '(r, w) := processAsset value (file_path (ctx_file ctx))
                       (output_name (ctx_output ctx)) (output_base (ctx_output ctx))
                       isImage (world st) in
      match r with
      | inr v => (Valid v, after_call isImage value ctx w st)
      | inl m => (Dirty JNull,
                  addIssue "custom" m ctx (after_call isImage value ctx w st))
      end.
Proof.
  unfold asset_schema, kept_as_is.
  destruct isImage.
  - destruct (default false allow && negb (isRelativePath value)) eqn:K.
    + apply andb_true_iff in K as [A R]. apply negb_true_iff in R.
      now apply image_wraps_path.
    + now apply image_resolves.
  - destruct (default true allow && negb (isRelativePath value)) eqn:K.
    + apply andb_true_iff in K as [A R]. apply negb_true_iff in R.
      now apply file_keeps_path.
    + now apply file_resolves.
Qed.

(** X5: a file or image schema calls the resolver exactly when it does not
    keep the path as it is, once, with the path, the path of the file
    being parsed, the name template and the base of the output, and the
    flag of the schema. A relative path is always resolved, and so is
    every path when non-relative paths are not allowed. *)
Theorem resolver_is_called_unless_kept (isImage : bool) allow (value : string) ctx st :
  let r := asset_schema isRelativePath processAsset isImage allow (JStr value) ctx st in
  resolver_calls r.2 =
    (if kept_as_is isRelativePath isImage allow value then resolver_calls st
     else resolver_calls st ++ [the_call isImage value ctx])
  /\ (isRelativePath value = true ->
      resolver_calls r.2 = resolver_calls st ++ [the_call isImage value ctx])
  /\ (allow = Some false ->
      resolver_calls r.2 = resolver_calls st ++ [the_call isImage value ctx]).
Proof.
  intros r. subst r.
  assert (E : resolver_calls (asset_schema isRelativePath processAsset isImage allow (JStr value) ctx st).2 =
    (if kept_as_is isRelativePath isImage allow value then resolver_calls st
     else resolver_calls st ++ [the_call isImage value ctx])).
  { rewrite asset_run. destruct (kept_as_is isRelativePath isImage allow value); [reflexivity |].
    destruct (processAsset _ _ _ _ _ _) as [[m|v] w]; reflexivity. }
  split; [exact E |]. split.
  - intros R. rewrite E. unfold kept_as_is. rewrite R. cbn [negb].
    now rewrite andb_false_r.
  - intros ->. rewrite E. unfold kept_as_is. now destruct isImage.
Qed.



End MoreAssets.

(** ** More on excerpts and dates *)

Module MoreSliceFacts.
Import JsString SliceFacts.

Lemma substring_0_twice (a b : nat) (s : string) :
  String.substring 0 a (String.substring 0 b s) = String.substring 0 (Nat.min a b) s.
Proof.
  revert b s; induction a as [|a IH]; intros [|b] [|c s]; simpl; auto.
  f_equal. apply IH.
Qed.

Lemma slice_0_twice (s : string) (L1 L2 : Z) :
  (0 <= L1)%Z -> (0 <= L2)%Z ->
  slice (slice s 0 L2) 0 L1 = slice s 0 (Z.min L1 L2).
Proof.
  intros H1 H2. rewrite !slice_0 by lia. rewrite substring_0_length.
  rewrite substring_0_twice. f_equal. lia.
Qed.

(** [s.slice(0, L)] for [L < 0] drops the last [-L] code units. *)
Lemma slice_0_negative (s : string) (L : Z) :
  (L < 0)%Z ->
  slice s 0 L = String.substring 0 (String.length s - Z.to_nat (- L)) s.
Proof.
  intros H. unfold slice, len.
  replace (0 <? 0)%Z with false by reflexivity.
  replace (L <? 0)%Z with true by (symmetry; apply Z.ltb_lt; lia).
  replace (Z.min 0 (Z.of_nat (String.length s))) with 0%Z by lia.
  f_equal. lia.
Qed.

End MoreSliceFacts.

Section MoreExcerpt.
Context {World : Type}.
Implicit Types (st : St World) (ctx : Ctx) (value : JsValue).



(** X9: cutting an excerpt again: for lengths L1, L2 >= 0, the excerpt of
    length L1 of an excerpt of length L2 is the excerpt of length
    min(L1, L2) of the original value. *)
Theorem excerpt_of_excerpt (L1 L2 : Z) value ctx st out st' :
  (0 <= L1)%Z -> (0 <= L2)%Z ->
  excerpt (Some L2) value ctx st = (Valid out, st') ->
  excerpt (Some L1) (JStr out) ctx st' = excerpt (Some (Z.min L1 L2)) value ctx st.
Proof.
  intros H1 H2 E. apply excerpt_valid_inv in E as (T & ET & -> & ->).
  rewrite (excerpt_of_text _ _ _ _ (JsString.slice T 0 L2)) by reflexivity.
  rewrite (excerpt_of_text _ _ _ _ T ET). cbn [default].
  now rewrite MoreSliceFacts.slice_0_twice.
Qed.

(** X10: a negative length L does not give an empty excerpt: the schema
    returns the text without its last -L code units (nothing when the text
    is that short), as [slice(0, L)] does. *)
Theorem excerpt_negative_length (L : Z) value ctx st (T : string) :
  (L < 0)%Z ->
  excerpt_text value ctx = Some T ->
  excerpt (Some L) value ctx st =
    (Valid (String.substring 0 (String.length T - Z.to_nat (- L)) T), st).
Proof.
  intros H E. rewrite (excerpt_of_text _ _ _ _ _ E). cbn [default].
  now rewrite MoreSliceFacts.slice_0_negative.
Qed.

End MoreExcerpt.

Module MoreDateFacts.
Import JsDate DateFacts.
Local Open Scope Z_scope.




Lemma format_inj t1 t2 :
  Z.abs t1 <= maxTime -> Z.abs t2 <= maxTime -> format t1 = format t2 -> t1 = t2.
Proof.
  intros H1 H2 E. pose proof (parse_utc_format t1 H1) as P1.
  rewrite E, (parse_utc_format t2 H2) in P1. congruence.
Qed.

End MoreDateFacts.

Section MoreIsodate.
Context {World : Type}.
Variable host_parse : string -> option Z.
Implicit Types (st : St World) (ctx : Ctx) (value : JsValue).

(** X11: a date the schema accepts keeps its instant: the string returned
    parses, under every implementation of [Date.parse], to the time value
    the input was parsed to; the state is as it was. *)
Theorem isodate_keeps_the_instant value ctx st out st' :
  isodate host_parse value ctx st = (Valid out, st') ->
  exists s t,
    value = JStr s
    /\ JsDate.parse host_parse s = Some t
    /\ (forall other_host, JsDate.parse other_host out = Some t)
    /\ st' = st.
Proof.
  intros H. apply isodate_valid_inv in H as (s & t & -> & P & -> & ->).
  exists s, t. repeat split; auto.
  intros h. apply DateFacts.parse_toISOString.
  eapply DateFacts.parse_in_range; eassumption.
Qed.

(** X12: two accepted date strings are normalized to the same string
    exactly when they denote the same instant. *)
Theorem isodate_same_string_same_instant (s1 s2 : string) ctx1 ctx2 st1 st2
    out1 out2 st1' st2' :
  isodate host_parse (JStr s1) ctx1 st1 = (Valid out1, st1') ->
  isodate host_parse (JStr s2) ctx2 st2 = (Valid out2, st2') ->
  (out1 = out2 <-> JsDate.parse host_parse s1 = JsDate.parse host_parse s2).
Proof.
  intros H1 H2.
  apply isodate_valid_inv in H1 as (s1' & t1 & [= <-] & P1 & -> & _).
  apply isodate_valid_inv in H2 as (s2' & t2 & [= <-] & P2 & -> & _).
  rewrite P1, P2. split.
  - intros E. f_equal. apply MoreDateFacts.format_inj; auto;
      eapply DateFacts.parse_in_range; eassumption.
  - intros [= ->]. reflexivity.
Qed.

(** X13: the isodate schema lets no exception out, whatever the input (the
    RangeError of [toISOString] on an invalid date is never reached), and
    leaves the cache and the resolver alone; a string that does not parse
    is not valid and adds the one issue 'Invalid date string' at the
    field's path. *)
Theorem isodate_rejects_without_throwing value ctx st :
  let r := isodate host_parse value ctx st in
  (forall e, r.1 <> Thrown e)
  /\ cache r.2 = cache st /\ resolver_calls r.2 = resolver_calls st
  /\ (forall s, value = JStr s -> JsDate.parse host_parse s = None ->
        (forall out, r.1 <> Valid out)
        /\ issues r.2 = issues st ++ [mkIssue "custom" "Invalid date string" (ctx_path ctx)]).
Proof.
  intros r. subst r. destruct value as [| s | i].
  - cbn. split; [discriminate |]. split; [reflexivity |]. split; [reflexivity |].
    discriminate.
  - rewrite isodate_run. destruct (JsDate.parse host_parse s) as [t|] eqn:P; cbn.
    + split; [discriminate |]. split; [reflexivity |]. split; [reflexivity |].
      intros s' [= <-] N. congruence.
    + split; [discriminate |]. split; [reflexivity |]. split; [reflexivity |].
      intros s' _ _. split; [discriminate | reflexivity].
  - cbn. split; [discriminate |]. split; [reflexivity |]. split; [reflexivity |].
    discriminate.
Qed.


End MoreIsodate.

(** ** The properties above on concrete inputs *)

(** "my-post" in the namespaces "posts" and "pages". *)
Lemma distinct_pairs_never_collide_witness :
  let r1 := slug (Some "posts") None (JStr "my-post") post_a (initial tt) in
  let r2 := slug (Some "pages") None (JStr "my-post") post_b (next_file r1.2) in
  slug_constraints [] "my-post"
  /\ ("posts", "my-post") <> ("pages", "my-post")
  /\ r1.1 = Valid "my-post" /\ r2.1 = Valid "my-post" /\ issues r2.2 = []
  /\ cache r2.2 !! "schemas:slug:posts:my-post" = Some "posts/a.md"
  /\ cache r2.2 !! "schemas:slug:pages:my-post" = Some "posts/b.md".
Proof.
  intros r1 r2.
  assert (Ne : ("posts", "my-post") <> ("pages", "my-post")) by discriminate.
  destruct (distinct_pairs_never_collide (World := unit) (Some "posts")
              (Some "pages") None "my-post" "my-post" post_a post_b (initial tt)
              my_post_meets_constraints my_post_meets_constraints Ne
              eq_refl eq_refl)
    as (_ & H1 & _ & H2 & H3 & H4 & H5).
  split; [exact my_post_meets_constraints |].
  split; [exact Ne |].
  exact (conj H1 (conj H2 (conj H3 (conj H4 H5)))).
Defined.

Lemma admin_matches_pattern : Regex.matches true slug_re "admin".
Proof. apply RegexFacts.test_matches. reflexivity. Qed.

(** "admin" with the reserved words "admin" and "new". *)
Lemma reserved_words_match_exactly_witness :
  (3 <= JsString.len "admin" <= 200)%nat
  /\ In (mkIssue "custom" "Reserved slug" ["slug"])
       (issues (slug None (Some ["admin"; "new"]) (JStr "admin") post_a
                  (initial tt)).2).
Proof.
  assert (L : (3 <= JsString.len "admin" <= 200)%nat) by (cbn; lia).
  split; [exact L |].
  destruct (reserved_words_match_exactly (World := unit) None
              (Some ["admin"; "new"]) "admin" post_a (initial tt) L
              admin_matches_pattern)
    as (more & E & I & _).
  rewrite E. apply in_or_app. right. apply I. now left.
Defined.


Lemma excerpt_of_excerpt_witness :
  excerpt (Some 5%Z) (JStr "hello world") post_a (initial tt)
    = (Valid "hello", initial tt)
  /\ excerpt (Some 3%Z) (JStr "hello") post_a (initial tt)
     = excerpt (Some 3%Z) (JStr "hello world") post_a (initial tt).
Proof.
  assert (E : excerpt (Some 5%Z) (JStr "hello world") post_a (initial tt)
              = (Valid "hello", initial tt)) by reflexivity.
  split; [exact E |].
  exact (excerpt_of_excerpt (World := unit) 3 5 (JStr "hello world") post_a
           (initial tt) "hello" (initial tt) (Pos2Z.is_nonneg 3)
           (Pos2Z.is_nonneg 5) E).
Defined.

Lemma excerpt_negative_length_witness :
  excerpt (Some (-6)%Z) (JStr "hello world") post_a (initial tt)
    = (Valid "hello", initial tt).
Proof.
  exact (excerpt_negative_length (World := unit) (-6) (JStr "hello world")
           post_a (initial tt) "hello world" (Pos2Z.neg_is_neg 6) eq_refl).
Defined.

Lemma end_of_february_normalized :
  isodate no_host_format (JStr "+002024-02-29T24:00:00.000Z") post_a (initial tt)
    = (Valid "2024-03-01T00:00:00.000Z", initial tt).
Proof. vm_compute. reflexivity. Qed.

Lemma first_of_march_normalized :
  isodate no_host_format (JStr "2024-03-01T00:00:00.000Z") post_a (initial tt)
    = (Valid "2024-03-01T00:00:00.000Z", initial tt).
Proof. vm_compute. reflexivity. Qed.

Lemma isodate_keeps_the_instant_witness :
  exists t,
    JsDate.parse no_host_format "+002024-02-29T24:00:00.000Z" = Some t
    /\ JsDate.parse no_host_format "2024-03-01T00:00:00.000Z" = Some t.
Proof.
  destruct (isodate_keeps_the_instant (World := unit) no_host_format _ _ _ _ _
              end_of_february_normalized)
    as (s & t & [= <-] & P & H & _).
  exists t. split; [exact P | apply H].
Defined.

Lemma isodate_same_string_same_instant_witness :
  JsDate.parse no_host_format "+002024-02-29T24:00:00.000Z"
  = JsDate.parse no_host_format "2024-03-01T00:00:00.000Z".
Proof.
  exact (proj1 (isodate_same_string_same_instant (World := unit) no_host_format
                  _ _ _ _ _ _ _ _ _ _
                  end_of_february_normalized first_of_march_normalized)
               eq_refl).
Defined.

